(** * ThreadPool: a fixed-size worker pool with a softly bounded task queue

    Shallow embedding of [ThreadPool.h] and [ThreadPool.cpp].

    Every read and write of [tasks_], [stop_] and [activeTasks_] happens
    while [queueMutex_] is held, so each stretch of code between taking the
    lock (or waking inside a condition-variable wait, which re-takes it) and
    releasing it (or going to sleep inside a wait, which releases it) is one
    atomic transition of the shared state.  The embedding has two layers:

    - the critical sections themselves, as functions on the [ThreadPool]
      record ([GetNextTask], [NotifyTaskCompletion], [SignalThreadsToStop],
      the predicate of [WaitForAllTasks], the two halves of [Enqueue],
      [TryEnqueue]);
    - an interleaving semantics [step] in which worker threads and calling
      threads take those transitions one at a time, in any order.

    A submitted callable is taken to be independent of the pool: it is known
    by an identity and by how its invocation completes. *)

From stdpp Require Import base tactics option list gmap strings.
From Stdlib Require Import ZArith Lia.

Local Open Scope Z_scope.

(** ** Data *)

(** [std::size_t] is taken as the 64-bit unsigned type of the LP64 targets;
    [++] and [--] on it wrap around. *)
Definition SIZE_BITS : Z := 64.
Definition SIZE_MODULUS : Z := 2 ^ SIZE_BITS.
Definition size_wrap (z : Z) : Z := z mod SIZE_MODULUS.

(** What invoking a bound callable [std::bind(f, args...)] ends in: a return
    value or a thrown exception. *)
Inductive Completion :=
| Returns (v : Z)
| Throws (what : string).

Record Callable := { ident : nat; completes : Completion }.

(** The shared state behind a [std::packaged_task]: the stored result, if the
    task has been invoked, and whether [get_future] has been called on it. *)
Record SharedState := { stored : option Completion; future_retrieved : bool }.

(** An element of [tasks_]: the closure that captures the [shared_ptr] to a
    packaged task and, when called, invokes that packaged task; [shared] is
    the address of that task's shared state.  The empty [std::function] is [None : option Task]. *)
Record Task := { bound : Callable; shared : nat }.

(** The data members of [class ThreadPool] that the lock protects, and the
    constant [maxQueueSize_]. [tasks_] has its front at the head of the
    list. *)
Record ThreadPool := {
  tasks_ : list Task;
  stop_ : bool;
  activeTasks_ : Z;
  maxQueueSize_ : Z
}.

Definition with_tasks (q : list Task) (p : ThreadPool) : ThreadPool :=
  {| tasks_ := q; stop_ := stop_ p;
     activeTasks_ := activeTasks_ p; maxQueueSize_ := maxQueueSize_ p |}.

Definition with_stop (b : bool) (p : ThreadPool) : ThreadPool :=
  {| tasks_ := tasks_ p; stop_ := b;
     activeTasks_ := activeTasks_ p; maxQueueSize_ := maxQueueSize_ p |}.

Definition with_activeTasks (n : Z) (p : ThreadPool) : ThreadPool :=
  {| tasks_ := tasks_ p; stop_ := stop_ p;
     activeTasks_ := n; maxQueueSize_ := maxQueueSize_ p |}.

(** [tasks_.empty()] and [tasks_.size()]; the length of a [std::queue] is
    below [max_size()], so [size] does not wrap. *)
Definition empty (q : list Task) : bool :=
  match q with [] => true | _ :: _ => false end.

Definition size (q : list Task) : Z := Z.of_nat (length q).

(** [tasks_.emplace(...)]: a [std::queue] grows at the back. *)
Definition emplace (t : Task) (p : ThreadPool) : ThreadPool :=
  with_tasks (tasks_ p ++ [t]) p.

(** ** The critical sections of ThreadPool.cpp *)

(** Member initialisers of the constructor (line 4). *)
Definition ThreadPool_init (maxQueueSize : Z) : ThreadPool :=
  {| tasks_ := []; stop_ := false; activeTasks_ := 0;
     maxQueueSize_ := maxQueueSize |}.

Definition SignalThreadsToStop (p : ThreadPool) : ThreadPool :=
  with_stop true p.

(** The predicate of [condition_.wait] in [GetNextTask] (line 75). *)
Definition task_or_stop (p : ThreadPool) : bool :=
  stop_ p || negb (empty (tasks_ p)).

(** [GetNextTask], from the moment the wait's predicate is evaluated under
    the lock.  [None]: the predicate is false and the thread stays inside
    [condition_.wait]. [Some (None, p)]: the empty function is returned.
    [Some (Some t, p')]: task [t] is returned. *)
Definition GetNextTask (p : ThreadPool) : option (option Task * ThreadPool) :=
  if task_or_stop p then
    if stop_ p && empty (tasks_ p) then Some (None, p)
    else
      match tasks_ p with
      | t :: q =>
          Some (Some t, with_activeTasks (size_wrap (activeTasks_ p + 1))
                          (with_tasks q p))
      | [] => None (* not reached: the two tests above leave a task *)
      end
  else None.

(** [NotifyTaskCompletion]: the new state and whether
    [finished_.notify_all()] is called. *)
Definition NotifyTaskCompletion (p : ThreadPool) : ThreadPool * bool :=
  let p' := with_activeTasks (size_wrap (activeTasks_ p - 1)) p in
  (p', (0 =? activeTasks_ p') && empty (tasks_ p')).

(** The predicate of [finished_.wait] in [WaitForAllTasks] (line 123). *)
Definition all_done (p : ThreadPool) : bool :=
  empty (tasks_ p) && (0 =? activeTasks_ p).

(** ** The critical sections of ThreadPool.h *)

(** The predicate of [queueNotFull_.wait_for] in [Enqueue] (line 163). *)
Definition stop_or_room (p : ThreadPool) : bool :=
  stop_ p || (size (tasks_ p) <? maxQueueSize_ p).

(** How the first critical section of [Enqueue] (lines 151-163) ends. *)
Inductive Entry :=
| Thrown (what : string)   (* [throw std::runtime_error(what)] *)
| Admit                    (* control reaches line 171 with the lock held *)
| Sleep.                   (* inside [wait_for], lock released *)

Definition Enqueue_entry (p : ThreadPool) : Entry :=
  if stop_ p then Thrown "enqueue on stopped ThreadPool"
  else if size (tasks_ p) >=? maxQueueSize_ p then
    (* [wait_for] tests its predicate before it first sleeps *)
    if stop_or_room p then Admit else Sleep
  else Admit.

(** One wake-up inside [wait_for(lock, timeout, pred)]:
    [while (!pred()) if (wait_until(...) == timeout) return pred(); return true;]
    [timed_out] tells whether [wait_until] reported the deadline.  [None]:
    the thread sleeps again; [Some r]: [wait_for] returns [r]. *)
Definition wait_for_wake (timed_out : bool) (p : ThreadPool) : option bool :=
  if timed_out then Some (stop_or_room p)
  else if stop_or_room p then Some true else None.

(** Lines 160-171 after a wake-up: the result of [wait_for] is tested by an
    [if] with an empty body, then the task is emplaced. *)
Definition Enqueue_wake (timed_out : bool) (t : Task) (p : ThreadPool)
  : option ThreadPool :=
  match wait_for_wake timed_out p with
  | Some false => Some (emplace t p)
  | Some true => Some (emplace t p)
  | None => None
  end.

(** [TryEnqueue] on the pool: the returned flag and the new state; [t] is the
    closure that lines 201-203 would build. *)
Definition TryEnqueue (t : Task) (p : ThreadPool) : bool * ThreadPool :=
  if stop_ p then (false, p)
  else if size (tasks_ p) >=? maxQueueSize_ p then (false, p)
  else (true, emplace t p).

(** ** Packaged tasks *)

(** The shared states live in an arena addressed by position. *)
Abbreviation Heap := (list SharedState).

(** [std::make_shared<std::packaged_task<...>>(...)]: a fresh shared state,
    nothing stored, no future taken. *)
Definition make_packaged_task (h : Heap) : nat * Heap :=
  (length h, h ++ [{| stored := None; future_retrieved := false |}]).

(** [task->get_future()]. *)
Definition get_future (a : nat) (h : Heap) : Heap :=
  alter (fun st => {| stored := stored st; future_retrieved := true |}) a h.

(** Calling the queued closure runs the packaged task: the callable's return
    value or the exception it throws is stored in the shared state, and the
    call itself returns normally. *)
Definition invoke (t : Task) (h : Heap) : Heap :=
  alter (fun st => {| stored := Some (completes (bound t));
                      future_retrieved := future_retrieved st |}) (shared t) h.

(** ** Threads *)

(** Where a worker thread is in the loop of lines 12-34. *)
Inductive Worker :=
| Fetching             (* line 16: in [GetNextTask] *)
| Running (t : Task)   (* lines 27-30: holds [t], about to call it *)
| Completing           (* line 33: before [NotifyTaskCompletion] *)
| Exited.              (* line 22: returned from the thread function *)

(** Where a calling thread is, when it is inside a call that can block. *)
Inductive Caller :=
| InEnqueue (t : Task)               (* in [wait_for], line 163 *)
| InWaitForAllTasks (asleep : bool)  (* in [finished_.wait], line 123;
                                        [asleep] until notified or woken *)
| InDestructor.                      (* lines 51-54: joining the workers *)

(** The pool, its threads, the packaged tasks, and three histories: the
    tasks in the order they were emplaced, in the order they were popped, and
    in the order their invocation completed. *)
Record System := {
  pool : ThreadPool;
  workers_ : list Worker;
  callers : gmap nat Caller;
  heap : Heap;
  admitted : list Task;
  dequeued : list Task;
  executed : list Task
}.

(** The constructor: all [threads] workers have been started. *)
Definition construct (threads : nat) (maxQueueSize : Z) : System :=
  {| pool := ThreadPool_init maxQueueSize;
     workers_ := replicate threads Fetching;
     callers := ∅; heap := []; admitted := []; dequeued := []; executed := [] |}.

(** [finished_.notify_all()]. *)
Definition notify_finished (cs : gmap nat Caller) : gmap nat Caller :=
  (fun c => match c with
            | InWaitForAllTasks _ => InWaitForAllTasks false
            | _ => c
            end) <$> cs.

(** What a transition lets its thread's caller see. *)
Inductive Outcome :=
| Quiet                   (* no call returned *)
| Future (a : nat)        (* [Enqueue] returned the future of state [a] *)
| Error (what : string)   (* [Enqueue] threw [std::runtime_error] *)
| Flag (b : bool)         (* [TryEnqueue] returned [b] *)
| Drained                 (* [WaitForAllTasks] returned *)
| Destroyed.              (* the destructor returned *)

(** The atomic transitions; [c] names a calling thread, [w] indexes
    [workers_]. *)
Inductive Event :=
| CallEnqueue (c : nat) (f : Callable)
    (* ThreadPool.h 148-174, up to the return, the throw or the sleep *)
| WakeEnqueue (c : nat) (timed_out : bool)
    (* ThreadPool.h 163-174, from a wake-up inside [wait_for] *)
| CallTryEnqueue (c : nat) (f : Callable)    (* ThreadPool.h 186-207 *)
| CallWaitForAllTasks (c : nat)
    (* ThreadPool.cpp 116-123, up to the return or the sleep *)
| WakeWaitForAllTasks (c : nat)
    (* ThreadPool.cpp 123, a notified thread tests the predicate again *)
| SpuriousWake (c : nat)
    (* a thread asleep on [finished_] wakes without a notification *)
| CallDestructor (c : nat)                   (* ThreadPool.cpp 42-47 *)
| JoinWorkers (c : nat)                      (* ThreadPool.cpp 51-54 *)
| Work (w : nat).                            (* ThreadPool.cpp 12-34 *)

Definition set_pool (p : ThreadPool) (s : System) : System :=
  {| pool := p; workers_ := workers_ s; callers := callers s; heap := heap s;
     admitted := admitted s; dequeued := dequeued s; executed := executed s |}.

Definition set_worker (w : nat) (x : Worker) (s : System) : System :=
  {| pool := pool s; workers_ := <[w := x]> (workers_ s);
     callers := callers s; heap := heap s;
     admitted := admitted s; dequeued := dequeued s; executed := executed s |}.

Definition set_callers (cs : gmap nat Caller) (s : System) : System :=
  {| pool := pool s; workers_ := workers_ s; callers := cs; heap := heap s;
     admitted := admitted s; dequeued := dequeued s; executed := executed s |}.

Definition set_heap (h : Heap) (s : System) : System :=
  {| pool := pool s; workers_ := workers_ s; callers := callers s; heap := h;
     admitted := admitted s; dequeued := dequeued s; executed := executed s |}.

Definition log_admitted (t : Task) (s : System) : System :=
  {| pool := pool s; workers_ := workers_ s; callers := callers s;
     heap := heap s; admitted := admitted s ++ [t];
     dequeued := dequeued s; executed := executed s |}.

Definition log_dequeued (t : Task) (s : System) : System :=
  {| pool := pool s; workers_ := workers_ s; callers := callers s;
     heap := heap s; admitted := admitted s;
     dequeued := dequeued s ++ [t]; executed := executed s |}.

Definition log_executed (t : Task) (s : System) : System :=
  {| pool := pool s; workers_ := workers_ s; callers := callers s;
     heap := heap s; admitted := admitted s;
     dequeued := dequeued s; executed := executed s ++ [t] |}.

Definition is_exited (x : Worker) : bool :=
  match x with Exited => true | _ => false end.

(** One atomic transition of worker [w]. *)
Definition work (w : nat) (s : System) : option (System * Outcome) :=
  match workers_ s !! w with
  | Some Fetching =>
      match GetNextTask (pool s) with
      | None => None
      | Some (None, p) => Some (set_worker w Exited (set_pool p s), Quiet)
      | Some (Some t, p) =>
          Some (log_dequeued t (set_worker w (Running t) (set_pool p s)),
                Quiet)
      end
  | Some (Running t) =>
      Some (log_executed t
              (set_worker w Completing (set_heap (invoke t (heap s)) s)),
            Quiet)
  | Some Completing =>
      let (p, notify) := NotifyTaskCompletion (pool s) in
      let cs := if notify then notify_finished (callers s) else callers s in
      Some (set_worker w Fetching (set_callers cs (set_pool p s)), Quiet)
  | Some Exited | None => None
  end.

(** The interleaving semantics.  [None]: the event's thread cannot move in
    this state (it is blocked, or it is not at that point of the code).

    A thread inside [condition_.wait] or [queueNotFull_.wait_for] may be
    woken at any time, by a notification, by the timeout or spuriously, so
    [Work] and [WakeEnqueue] are offered in every state and the wait's
    predicate decides; the 100 ms of [wait_for] are not measured, the
    deadline may be reported at any wake-up.  For [finished_] the sleeping
    threads are tracked: a sleeper moves only after [notify_all] or a
    [SpuriousWake]. *)
Definition step (e : Event) (s : System) : option (System * Outcome) :=
  match e with
  | CallEnqueue c f =>
      match callers s !! c with
      | Some _ => None
      | None =>
          let (a, h) := make_packaged_task (heap s) in
          let h := get_future a h in
          let t := {| bound := f; shared := a |} in
          match Enqueue_entry (pool s) with
          | Thrown what =>
              (* unwinding releases the packaged task and its future *)
              Some (s, Error what)
          | Admit =>
              Some (log_admitted t (set_pool (emplace t (pool s))
                                      (set_heap h s)), Future a)
          | Sleep =>
              Some (set_callers (<[c := InEnqueue t]> (callers s))
                      (set_heap h s), Quiet)
          end
      end
  | WakeEnqueue c timed_out =>
      match callers s !! c with
      | Some (InEnqueue t) =>
          match Enqueue_wake timed_out t (pool s) with
          | Some p =>
              Some (log_admitted t (set_pool p
                      (set_callers (delete c (callers s)) s)),
                    Future (shared t))
          | None => None
          end
      | _ => None
      end
  | CallTryEnqueue c f =>
      match callers s !! c with
      | Some _ => None
      | None =>
          let (a, h) := make_packaged_task (heap s) in
          let t := {| bound := f; shared := a |} in
          match TryEnqueue t (pool s) with
          | (false, _) => Some (s, Flag false)
          | (true, p) =>
              Some (log_admitted t (set_pool p (set_heap h s)), Flag true)
          end
      end
  | CallWaitForAllTasks c =>
      match callers s !! c with
      | Some _ => None
      | None =>
          if all_done (pool s) then Some (s, Drained)
          else Some (set_callers (<[c := InWaitForAllTasks true]> (callers s))
                       s, Quiet)
      end
  | WakeWaitForAllTasks c =>
      match callers s !! c with
      | Some (InWaitForAllTasks false) =>
          if all_done (pool s)
          then Some (set_callers (delete c (callers s)) s, Drained)
          else Some (set_callers (<[c := InWaitForAllTasks true]> (callers s))
                       s, Quiet)
      | _ => None
      end
  | SpuriousWake c =>
      match callers s !! c with
      | Some (InWaitForAllTasks true) =>
          Some (set_callers (<[c := InWaitForAllTasks false]> (callers s)) s,
                Quiet)
      | _ => None
      end
  | CallDestructor c =>
      match callers s !! c with
      | Some _ => None
      | None =>
          Some (set_callers (<[c := InDestructor]> (callers s))
                  (set_pool (SignalThreadsToStop (pool s)) s), Quiet)
      end
  | JoinWorkers c =>
      match callers s !! c with
      | Some InDestructor =>
          if forallb is_exited (workers_ s)
          then Some (set_callers (delete c (callers s)) s, Destroyed)
          else None
      | _ => None
      end
  | Work w => work w s
  end.

(** A schedule is a list of events; [run] follows it and collects what the
    callers saw. *)
Fixpoint run (es : list Event) (s : System) : option (System * list Outcome) :=
  match es with
  | [] => Some (s, [])
  | e :: es' =>
      match step e s with
      | Some (s', o) =>
          match run es' s' with
          | Some (s'', os) => Some (s'', o :: os)
          | None => None
          end
      | None => None
      end
  end.

(** The states the pool can be in: those a schedule reaches from a freshly
    constructed pool.  [threads] and [maxQueueSize] are [size_t] values. *)
Inductive reachable : System -> Prop :=
| reachable_construct threads maxQueueSize :
    Z.of_nat threads < SIZE_MODULUS ->
    0 <= maxQueueSize < SIZE_MODULUS ->
    reachable (construct threads maxQueueSize)
| reachable_step s e s' o :
    reachable s -> step e s = Some (s', o) -> reachable s'.

(** Workers that hold a popped task whose completion has not yet been
    reported: the ones [activeTasks_] counts. *)
Definition is_busy (x : Worker) : bool :=
  match x with Running _ | Completing => true | _ => false end.

Fixpoint busy (ws : list Worker) : Z :=
  match ws with
  | [] => 0
  | x :: ws' => (if is_busy x then 1 else 0) + busy ws'
  end.

(** Events that put, or may put, a task into the queue. *)
Definition submits (e : Event) : bool :=
  match e with
  | CallEnqueue _ _ | WakeEnqueue _ _ | CallTryEnqueue _ _ => true
  | _ => false
  end.

(** What holds in every reachable state. *)
Record invariant (s : System) : Prop := {
  inv_active : activeTasks_ (pool s) = busy (workers_ s);
  inv_threads : Z.of_nat (length (workers_ s)) < SIZE_MODULUS;
  inv_awake : all_done (pool s) = true ->
              forall c, callers s !! c <> Some (InWaitForAllTasks true);
  inv_fifo : admitted s = dequeued s ++ tasks_ (pool s)
}.

(** The state a schedule leads to, and what its callers saw; a schedule
    that cannot be followed leaves the state as it was. *)
Definition after (es : list Event) (s : System) : System :=
  match run es s with Some (s', _) => s' | None => s end.

Definition outcomes (es : list Event) (s : System) : list Outcome :=
  match run es s with Some (_, os) => os | None => [] end.

(** Callables for the scenarios below. *)
Definition job (n : nat) : Callable :=
  {| ident := n; completes := Returns (Z.of_nat n) |}.

Definition failing (n : nat) : Callable :=
  {| ident := n; completes := Throws "task failed" |}.

(** The closure [Enqueue] or [TryEnqueue] builds for [f] in state [s]. *)
Definition closure (f : Callable) (s : System) : Task :=
  {| bound := f; shared := length (heap s) |}.

(** Two workers, two tasks: the task queued second completes first. *)
Definition overtaking : list Event :=
  [CallEnqueue 0 (job 1); CallEnqueue 0 (job 2);
   Work 0; Work 1; Work 1; Work 0].

(** No future refers to the shared state at address [a], and no sleeping
    [Enqueue] is going to return one. *)
Definition hidden (a : nat) (s : System) : Prop :=
  (exists st, heap s !! a = Some st /\ future_retrieved st = false) /\
  (forall c t, callers s !! c = Some (InEnqueue t) -> shared t <> a).

(** One worker, five tasks queued before the worker has run, then the
    destructor: the worker's sixteen transitions and the join. *)
Definition five_queued : list Event :=
  [CallEnqueue 0 (job 1); CallEnqueue 0 (job 2); CallEnqueue 0 (job 3);
   CallEnqueue 0 (job 4); CallEnqueue 0 (job 5)].

Definition shutdown : list Event :=
  CallDestructor 0 :: replicate 16 (Work 0) ++ [JoinWorkers 0].

(** States used as concrete instances. *)
Definition fresh_pool : System := construct 1 2.

Definition stopped_pool : System := after [CallDestructor 0] (construct 1 2).

Definition full_pool : System := after [CallEnqueue 0 (job 1)] (construct 1 1).

Definition one_queued : System := after [CallEnqueue 0 (job 1)] (construct 1 2).

Definition drained_with_waiter : System :=
  after [CallEnqueue 0 (job 1); CallWaitForAllTasks 1; Work 0; Work 0; Work 0]
    (construct 1 2).

(** Closes the [inv_awake] part of the invariant after a change of one
    caller's entry. *)
Local Ltac awake Hw :=
  let Hd := fresh in let c' := fresh in
  intros Hd c';
  first [specialize (Hw Hd c') | specialize (Hw eq_refl c')];
  rewrite ?lookup_insert, ?lookup_delete; try case_decide; congruence.

(** The task a worker holds between popping it and calling it. *)
Definition held (x : Worker) : list Task :=
  match x with Running t => [t] | _ => [] end.

Fixpoint running (ws : list Worker) : list Task :=
  match ws with
  | [] => []
  | x :: ws' => held x ++ running ws'
  end.

(** How many times a schedule lets a sleeping [Enqueue] try to leave
    [wait_for]. *)
Fixpoint late_admissions (es : list Event) : Z :=
  match es with
  | [] => 0
  | WakeEnqueue _ _ :: es' => 1 + late_admissions es'
  | _ :: es' => late_admissions es'
  end.

(** The addresses of the futures that calls of [Enqueue] returned. *)
Fixpoint futures (os : list Outcome) : list nat :=
  match os with
  | [] => []
  | Future a :: os' => a :: futures os'
  | _ :: os' => futures os'
  end.

(** Facts about shutdown that hold in every reachable state. *)
Record stopping (s : System) : Prop := {
  stopping_destructor :
    forall c, callers s !! c = Some InDestructor -> stop_ (pool s) = true;
  stopping_exited :
    forall w, workers_ s !! w = Some Exited -> stop_ (pool s) = true
}.

(** Who owns which task and which shared state, in every reachable state:
    a popped task has been executed or is held by one worker; the tasks ever
    emplaced have pairwise different shared states, all allocated; the
    shared state of a sleeping [Enqueue] is allocated, belongs to no emplaced
    task and to no other sleeper; a shared state holds a result exactly when
    its task has been executed, and then the result of that task's
    callable. *)
Record ownership (s : System) : Prop := {
  own_split : dequeued s ≡ₚ executed s ++ running (workers_ s);
  own_nodup : NoDup (shared <$> admitted s);
  own_alloc : forall t, t ∈ admitted s -> (shared t < length (heap s))%nat;
  own_sleep : forall c t,
    callers s !! c = Some (InEnqueue t) ->
    (shared t < length (heap s))%nat /\ shared t ∉ shared <$> admitted s;
  own_sleep_inj : forall c c' t t',
    callers s !! c = Some (InEnqueue t) ->
    callers s !! c' = Some (InEnqueue t') ->
    shared t = shared t' -> c = c';
  own_result : forall t,
    t ∈ executed s ->
    exists st, heap s !! shared t = Some st /\
               stored st = Some (completes (bound t));
  own_pending : forall a st,
    heap s !! a = Some st -> stored st <> None -> a ∈ shared <$> executed s
}.

(** [h'] is [h] with one more shared state, in which nothing is stored. *)
Definition extends (h h' : Heap) : Prop :=
  length h' = S (length h) /\
  (forall a, (a < length h)%nat -> h' !! a = h !! a) /\
  (forall st, h' !! length h = Some st -> stored st = None).

(** More states used as concrete instances. *)
Definition reporting_pool : System :=
  after [CallEnqueue 0 (job 1); Work 0; Work 0] (construct 1 2).

Definition mixed_pool : System :=
  after [CallEnqueue 0 (job 1); CallEnqueue 0 (job 2); CallEnqueue 0 (job 3);
         Work 0; Work 0; Work 1] (construct 2 3).

Definition five_queued_pool : System := after five_queued (construct 1 10).

Definition before_join : System :=
  after (CallDestructor 0 :: replicate 16 (Work 0)) five_queued_pool.

Definition sleeper_pool : System := after [CallEnqueue 1 (job 2)] full_pool.


(** Transitions of worker threads. *)
Definition is_work (e : Event) : bool :=
  match e with Work _ => true | _ => false end.

(** ** Basic facts *)

Lemma size_wrap_small z : 0 <= z < SIZE_MODULUS -> size_wrap z = z.
Proof. intros H. unfold size_wrap. apply Z.mod_small, H. Qed.

Lemma empty_nil q : empty q = true <-> q = [].
Proof. destruct q; simpl; split; congruence. Qed.

Lemma all_done_iff p :
  all_done p = true <-> tasks_ p = [] /\ activeTasks_ p = 0.
Proof.
  unfold all_done. rewrite andb_true_iff, empty_nil, Z.eqb_eq.
  intuition congruence.
Qed.

Lemma busy_bounds ws : 0 <= busy ws <= Z.of_nat (length ws).
Proof.
  induction ws as [|x ws IH]; simpl; [lia|].
  destruct (is_busy x); lia.
Qed.

Lemma busy_insert ws w x y :
  ws !! w = Some x ->
  busy (<[w := y]> ws) =
  busy ws - (if is_busy x then 1 else 0) + (if is_busy y then 1 else 0).
Proof.
  revert w. induction ws as [|z ws IH]; intros [|w] H; simpl in *;
    try discriminate.
  - injection H as ->. lia.
  - rewrite (IH w H). lia.
Qed.

Lemma busy_lookup ws w x :
  ws !! w = Some x ->
  (if is_busy x then 1 else 0) <= busy ws
  <= Z.of_nat (length ws) - (if is_busy x then 0 else 1).
Proof.
  revert w. induction ws as [|z ws IH]; intros [|w] H; simpl in *;
    try discriminate.
  - injection H as ->. pose proof (busy_bounds ws). destruct (is_busy x); lia.
  - specialize (IH w H). destruct (is_busy z), (is_busy x); lia.
Qed.

(** ** The invariant *)

Lemma construct_invariant threads maxQueueSize :
  Z.of_nat threads < SIZE_MODULUS ->
  invariant (construct threads maxQueueSize).
Proof.
  intros H. split; simpl.
  - induction threads as [|n IH]; simpl; [reflexivity|]. apply IH. lia.
  - rewrite length_replicate. exact H.
  - intros _ c. rewrite lookup_empty. discriminate.
  - reflexivity.
Qed.

Lemma GetNextTask_cases p r :
  GetNextTask p = Some r ->
  (stop_ p = true /\ tasks_ p = [] /\ r = (None, p)) \/
  (exists t q, tasks_ p = t :: q /\
     r = (Some t, with_activeTasks (size_wrap (activeTasks_ p + 1))
                    (with_tasks q p))).
Proof.
  unfold GetNextTask, task_or_stop.
  destruct (stop_ p), (tasks_ p) as [|t q]; simpl; intros H; simplify_eq;
    eauto 6.
Qed.

Lemma notify_finished_awake cs c :
  notify_finished cs !! c <> Some (InWaitForAllTasks true).
Proof.
  unfold notify_finished. rewrite lookup_fmap.
  destruct (cs !! c) as [[]|]; simpl; congruence.
Qed.

Lemma all_done_emplace t p : all_done (emplace t p) = false.
Proof. unfold all_done. simpl. destruct (tasks_ p); reflexivity. Qed.

Lemma Enqueue_wake_emplace b t p p' :
  Enqueue_wake b t p = Some p' -> p' = emplace t p.
Proof.
  unfold Enqueue_wake. destruct (wait_for_wake b p) as [[]|]; congruence.
Qed.

Lemma TryEnqueue_true t p p' :
  TryEnqueue t p = (true, p') ->
  p' = emplace t p /\ stop_ p = false /\ size (tasks_ p) < maxQueueSize_ p.
Proof.
  unfold TryEnqueue. destruct (stop_ p); [discriminate|].
  destruct (Z.geb_spec (size (tasks_ p)) (maxQueueSize_ p)) as [Hge|Hlt];
    intros E; simplify_eq. auto.
Qed.

Lemma TryEnqueue_false t p p' :
  TryEnqueue t p = (false, p') ->
  p' = p /\ (stop_ p = true \/ maxQueueSize_ p <= size (tasks_ p)).
Proof.
  unfold TryEnqueue. destruct (stop_ p); [intros; simplify_eq; auto|].
  destruct (Z.geb_spec (size (tasks_ p)) (maxQueueSize_ p)) as [Hge|Hlt];
    intros E; simplify_eq. split; [done|right; lia].
Qed.

Lemma step_invariant e s s' o :
  invariant s -> step e s = Some (s', o) -> invariant s'.
Proof.
  intros [Ha Ht Hw Hf] H.
  destruct e; simpl in H; unfold work in H.
  all: repeat case_match; simplify_eq/=.
  all: try (split; simpl; auto; fail).
  - (* Enqueue admits at once *)
    split; simpl; auto.
    + intros Hd. rewrite all_done_emplace in Hd. discriminate.
    + rewrite Hf, <- app_assoc. reflexivity.
  - (* Enqueue goes to sleep *)
    split; simpl; auto. awake Hw.
  - (* Enqueue wakes *)
    match goal with H : Enqueue_wake _ _ _ = _ |- _ =>
      apply Enqueue_wake_emplace in H; subst end.
    split; simpl; auto.
    + intros Hd. rewrite all_done_emplace in Hd. discriminate.
    + rewrite Hf, <- app_assoc. reflexivity.
  - (* TryEnqueue admits *)
    match goal with H : TryEnqueue _ _ = _ |- _ =>
      apply TryEnqueue_true in H; destruct H as (-> & _ & _) end.
    split; simpl; auto.
    + intros Hd. rewrite all_done_emplace in Hd. discriminate.
    + rewrite Hf, <- app_assoc. reflexivity.
  - (* WaitForAllTasks goes to sleep: the work is not done *)
    split; simpl; auto. congruence.
  - split; simpl; auto. awake Hw.
  - split; simpl; auto. congruence.
  - split; simpl; auto. awake Hw.
  - split; simpl; auto. awake Hw.
  - split; simpl; auto. awake Hw.
  - (* a worker pops a task *)
    match goal with H : GetNextTask _ = _ |- _ =>
      apply GetNextTask_cases in H;
      destruct H as [(_ & _ & ?)|(t' & q & Hq & ?)]; simplify_eq end.
    match goal with H : workers_ s !! w = Some Fetching |- _ =>
      pose proof (busy_lookup _ _ _ H) as Hb;
      pose proof (busy_insert _ _ _ (Running t') H) as Hi end.
    simpl in Hb, Hi.
    split; simpl.
    + rewrite Hi, Ha, size_wrap_small by lia. lia.
    + rewrite length_insert. exact Ht.
    + intros Hd. apply all_done_iff in Hd. simpl in Hd.
      destruct Hd as [_ Hd]. rewrite size_wrap_small in Hd by lia. lia.
    + rewrite Hf, Hq, <- app_assoc. reflexivity.
  - (* a worker receives the empty function *)
    match goal with H : GetNextTask _ = _ |- _ =>
      apply GetNextTask_cases in H;
      destruct H as [(_ & _ & ?)|(t' & q & Hq & ?)]; simplify_eq end.
    match goal with H : workers_ s !! w = Some Fetching |- _ =>
      pose proof (busy_insert _ _ _ Exited H) as Hi end.
    simpl in Hi.
    split; simpl; auto.
    + rewrite Hi, Ha. lia.
    + rewrite length_insert. exact Ht.
  - (* a worker runs its task *)
    match goal with H : workers_ s !! w = Some (Running _) |- _ =>
      pose proof (busy_insert _ _ _ Completing H) as Hi end.
    simpl in Hi.
    split; simpl; auto.
    + rewrite Hi, Ha. lia.
    + rewrite length_insert. exact Ht.
  - (* a worker reports completion and notifies *)
    match goal with H : workers_ s !! w = Some Completing |- _ =>
      pose proof (busy_lookup _ _ _ H) as Hb;
      pose proof (busy_insert _ _ _ Fetching H) as Hi end.
    simpl in Hb, Hi.
    match goal with H : NotifyTaskCompletion _ = _ |- _ =>
      unfold NotifyTaskCompletion in H; simplify_eq end.
    split; simpl; auto.
    + rewrite Hi, Ha, size_wrap_small by lia. lia.
    + rewrite length_insert. exact Ht.
    + intros _ c'. apply notify_finished_awake.
  - (* a worker reports completion, no notification *)
    match goal with H : workers_ s !! w = Some Completing |- _ =>
      pose proof (busy_lookup _ _ _ H) as Hb;
      pose proof (busy_insert _ _ _ Fetching H) as Hi end.
    simpl in Hb, Hi.
    match goal with H : NotifyTaskCompletion _ = _ |- _ =>
      unfold NotifyTaskCompletion in H; injection H as <- Hn end.
    simpl in Hn.
    split; simpl; auto.
    + rewrite Hi, Ha, size_wrap_small by lia. lia.
    + rewrite length_insert. exact Ht.
    + intros Hd. unfold all_done in Hd. simpl in Hd.
      rewrite andb_comm in Hd. congruence.
Qed.

Lemma reachable_invariant s : reachable s -> invariant s.
Proof.
  induction 1 as [threads maxQueueSize H _|s e s' o _ IH H].
  - apply construct_invariant, H.
  - eapply step_invariant; eauto.
Qed.

Lemma run_reachable es s s' os :
  reachable s -> run es s = Some (s', os) -> reachable s'.
Proof.
  revert s s' os. induction es as [|e es IH]; simpl; intros s s' os Hs H.
  - congruence.
  - destruct (step e s) as [[s1 o]|] eqn:E; [|discriminate].
    destruct (run es s1) as [[s2 os']|] eqn:R; [|discriminate].
    injection H as <- <-. eapply IH; [|exact R].
    eapply reachable_step; eauto.
Qed.

Lemma after_reachable es s : reachable s -> reachable (after es s).
Proof.
  intros H. unfold after. destruct (run es s) as [[s' os]|] eqn:E; [|exact H].
  eapply run_reachable; eauto.
Qed.

(** How a transition changes the pool: not at all, or by one of the
    critical sections. *)
Lemma step_pool e s s' o :
  step e s = Some (s', o) ->
  pool s' = pool s \/
  (exists t, pool s' = emplace t (pool s)) \/
  pool s' = SignalThreadsToStop (pool s) \/
  (exists r, GetNextTask (pool s) = Some (r, pool s')) \/
  pool s' = fst (NotifyTaskCompletion (pool s)).
Proof.
  intros H. destruct e; simpl in H; unfold work in H.
  all: repeat case_match; simplify_eq/=; auto.
  all: repeat match goal with
       | H : Enqueue_wake _ _ _ = _ |- _ =>
           apply Enqueue_wake_emplace in H; subst
       | H : TryEnqueue _ _ = (true, _) |- _ =>
           apply TryEnqueue_true in H; destruct H as (-> & _ & _)
       | H : NotifyTaskCompletion _ = _ |- _ =>
           unfold NotifyTaskCompletion in H; simplify_eq
       end; eauto 8.
Qed.

Lemma step_stop e s s' o :
  step e s = Some (s', o) -> stop_ (pool s) = true -> stop_ (pool s') = true.
Proof.
  intros H Hs.
  destruct (step_pool _ _ _ _ H) as [E|[[t E]|[E|[[r Hr]|E]]]];
    try (rewrite E; simpl; auto; fail).
  apply GetNextTask_cases in Hr.
  destruct Hr as [(_ & _ & ?)|(t & q & _ & ?)]; simplify_eq;
    match goal with E : pool s' = _ |- _ => rewrite E end; simpl; auto.
Qed.

(** A caller asleep in [Enqueue]'s [wait_for] stays there until its own
    wake-up. *)
Lemma step_keeps_InEnqueue e s s' o c t :
  step e s = Some (s', o) ->
  callers s !! c = Some (InEnqueue t) ->
  (forall b, e <> WakeEnqueue c b) ->
  callers s' !! c = Some (InEnqueue t).
Proof.
  intros H Hc Hne. destruct e; simpl in H; unfold work in H.
  all: repeat case_match; simplify_eq/=; auto.
  all: try (rewrite lookup_insert; case_decide; congruence).
  all: try (rewrite lookup_delete; case_decide; try congruence).
  - subst. exfalso. eapply Hne. reflexivity.
  - unfold notify_finished. rewrite lookup_fmap, Hc. reflexivity.
Qed.

Lemma run_keeps_InEnqueue es s s' os c t :
  Forall (fun e => forall b, e <> WakeEnqueue c b) es ->
  run es s = Some (s', os) ->
  callers s !! c = Some (InEnqueue t) ->
  callers s' !! c = Some (InEnqueue t).
Proof.
  intros Hes. revert s s' os.
  induction Hes as [|e es He _ IH]; simpl; intros s s' os H Hc.
  - congruence.
  - destruct (step e s) as [[s1 o]|] eqn:E; [|discriminate].
    destruct (run es s1) as [[s2 os']|] eqn:R; [|discriminate].
    injection H as <- <-. eapply IH; [exact R|].
    eapply step_keeps_InEnqueue; eauto.
Qed.

(** Whatever woke it, a caller that leaves [wait_for] emplaces its task. *)
Lemma WakeEnqueue_admits s c t b s' o :
  callers s !! c = Some (InEnqueue t) ->
  step (WakeEnqueue c b) s = Some (s', o) ->
  o = Future (shared t) /\
  tasks_ (pool s') = tasks_ (pool s) ++ [t] /\
  stop_ (pool s') = stop_ (pool s) /\
  callers s' !! c = None.
Proof.
  intros Hc H. simpl in H. rewrite Hc in H.
  destruct (Enqueue_wake b t (pool s)) as [p|] eqn:E; [|discriminate].
  apply Enqueue_wake_emplace in E. subst p. injection H as <- <-.
  simpl. repeat split. apply lookup_delete_eq.
Qed.

(** The deadline always lets the caller out of [wait_for]; so does any
    wake-up once [stop_] is true. *)
Lemma WakeEnqueue_enabled s c t b :
  callers s !! c = Some (InEnqueue t) ->
  b = true \/ stop_ (pool s) = true ->
  exists s', step (WakeEnqueue c b) s = Some (s', Future (shared t)).
Proof.
  intros Hc Hb. simpl. rewrite Hc.
  unfold Enqueue_wake, wait_for_wake, stop_or_room.
  destruct Hb as [->| ->]; simpl.
  - destruct (stop_ (pool s) || _); eauto.
  - destruct b; simpl; eauto.
Qed.

(** While all work is done and nothing is submitted, it stays done, and a
    notified caller of [WaitForAllTasks] stays notified until it moves. *)
Lemma step_keeps_barrier e s s' o c :
  invariant s ->
  step e s = Some (s', o) ->
  all_done (pool s) = true ->
  callers s !! c = Some (InWaitForAllTasks false) ->
  submits e = false ->
  e <> WakeWaitForAllTasks c ->
  all_done (pool s') = true /\
  callers s' !! c = Some (InWaitForAllTasks false).
Proof.
  intros [Ha _ _ _] H Hd Hc Hsub Hne.
  pose proof Hd as Hd'. apply all_done_iff in Hd'. destruct Hd' as [Hq Hz].
  destruct e; simpl in H, Hsub; try discriminate; unfold work in H.
  all: repeat case_match; simplify_eq/=; auto.
  all: try (split; [assumption|];
            first [rewrite lookup_insert | rewrite lookup_delete];
            case_decide; congruence).
  all: try match goal with H : GetNextTask _ = _ |- _ =>
         apply GetNextTask_cases in H;
         destruct H as [(_ & _ & ?)|(t' & q & Hq' & ?)]; simplify_eq
       end; auto.
  all: try congruence.
  all: match goal with H : workers_ _ !! _ = Some _ |- _ =>
         pose proof (busy_lookup _ _ _ H) as Hb; simpl in Hb; lia
       end.
Qed.

Lemma run_keeps_barrier es s s' os c :
  invariant s ->
  Forall (fun e => submits e = false /\ e <> WakeWaitForAllTasks c) es ->
  run es s = Some (s', os) ->
  all_done (pool s) = true ->
  callers s !! c = Some (InWaitForAllTasks false) ->
  all_done (pool s') = true /\
  callers s' !! c = Some (InWaitForAllTasks false).
Proof.
  intros Hi Hes. revert s s' os Hi.
  induction Hes as [|e es [He1 He2] _ IH]; simpl; intros s s' os Hi H Hd Hc.
  - injection H as <- _. auto.
  - destruct (step e s) as [[s1 o]|] eqn:E; [|discriminate].
    destruct (run es s1) as [[s2 os']|] eqn:R; [|discriminate].
    injection H as <- <-.
    destruct (step_keeps_barrier _ _ _ _ _ Hi E Hd Hc He1 He2) as [Hd1 Hc1].
    apply (IH s1 s2 os'); auto. eapply step_invariant; eauto.
Qed.

(** Only [WaitForAllTasks] reports [Drained], and only when its predicate
    holds. *)
Lemma step_Drained e s s' :
  step e s = Some (s', Drained) ->
  all_done (pool s) = true /\ pool s' = pool s /\
  exists c, e = CallWaitForAllTasks c \/ e = WakeWaitForAllTasks c.
Proof.
  intros H. destruct e; simpl in H; unfold work in H.
  all: repeat case_match; simplify_eq/=; eauto.
Qed.

(** How a transition changes the queue and the two histories of it. *)
Lemma step_queue e s s' o :
  step e s = Some (s', o) ->
  (tasks_ (pool s') = tasks_ (pool s) /\
   admitted s' = admitted s /\ dequeued s' = dequeued s) \/
  (exists t, tasks_ (pool s') = tasks_ (pool s) ++ [t] /\
             admitted s' = admitted s ++ [t] /\ dequeued s' = dequeued s) \/
  (exists t, tasks_ (pool s) = t :: tasks_ (pool s') /\
             admitted s' = admitted s /\ dequeued s' = dequeued s ++ [t]).
Proof.
  intros H. destruct e; simpl in H; unfold work in H.
  all: repeat case_match; simplify_eq/=; auto.
  all: repeat match goal with
       | H : Enqueue_wake _ _ _ = _ |- _ =>
           apply Enqueue_wake_emplace in H; subst
       | H : TryEnqueue _ _ = (true, _) |- _ =>
           apply TryEnqueue_true in H; destruct H as (-> & _ & _)
       | H : NotifyTaskCompletion _ = _ |- _ =>
           unfold NotifyTaskCompletion in H; simplify_eq
       | H : GetNextTask _ = _ |- _ =>
           apply GetNextTask_cases in H;
           destruct H as [(_ & _ & ?)|(t' & q & Hq' & ?)]; simplify_eq
       end; simpl; eauto 8.
Qed.

(** The future a sleeping [Enqueue] holds is for a state already in the
    arena. *)
Lemma step_sleepers e s s' o :
  (forall c t, callers s !! c = Some (InEnqueue t) ->
               (shared t < length (heap s))%nat) ->
  step e s = Some (s', o) ->
  forall c t, callers s' !! c = Some (InEnqueue t) ->
              (shared t < length (heap s'))%nat.
Proof.
  intros Hi H c' t'. destruct e; simpl in H; unfold work in H.
  all: repeat case_match; simplify_eq/=; auto.
  all: unfold get_future, invoke, notify_finished;
       rewrite ?length_alter, ?length_app; simpl.
  all: rewrite ?lookup_insert, ?lookup_delete, ?lookup_fmap;
       try case_decide; intros Hc; simplify_eq/=; try lia.
  all: try (specialize (Hi _ _ Hc); lia).
  destruct (callers s !! c') as [[]|] eqn:E; simplify_eq/=. eauto.
Qed.

Lemma reachable_sleepers s :
  reachable s ->
  forall c t, callers s !! c = Some (InEnqueue t) ->
              (shared t < length (heap s))%nat.
Proof.
  induction 1 as [threads maxQueueSize _ _|s e s' o _ IH H].
  - intros c t. simpl. rewrite lookup_empty. discriminate.
  - eapply step_sleepers; eauto.
Qed.

Lemma step_hidden a e s s' o :
  hidden a s -> step e s = Some (s', o) -> hidden a s' /\ o <> Future a.
Proof.
  intros [(st & Hst & Hfr) Hsl] H.
  pose proof (lookup_lt_Some _ _ _ Hst) as Hlt.
  assert (Happ : forall x, (heap s ++ [x]) !! a = Some st)
    by (intros x; rewrite lookup_app_l by exact Hlt; exact Hst).
  destruct e; simpl in H; unfold work in H.
  all: repeat case_match; simplify_eq/=.
  all: split; [split; simpl|]; try discriminate; eauto.
  all: unfold get_future, invoke, notify_finished.
  all: try (rewrite list_lookup_alter_ne by lia; eauto).
  all: try (intros c' t'; rewrite ?lookup_insert, ?lookup_delete;
            try case_decide; intros Hc; simplify_eq/=; try lia; eauto; fail).
  all: try (intros E; simplify_eq; try lia; eapply Hsl; eauto; fail).
  - (* invoking a packaged task keeps [future_retrieved] *)
    match goal with |- context [alter _ ?i _] =>
      destruct (decide (i = a)) as [->|Hne] end.
    + rewrite list_lookup_alter_eq, Hst. simpl. eauto.
    + rewrite list_lookup_alter_ne by exact Hne. eauto.
  - intros c' t'. rewrite lookup_fmap.
    destruct (callers s !! c') as [[]|] eqn:E; intros ?; simplify_eq/=.
    eauto.
Qed.

Lemma run_hidden a es s s' os :
  hidden a s -> run es s = Some (s', os) ->
  hidden a s' /\ Forall (fun o => o <> Future a) os.
Proof.
  revert s s' os. induction es as [|e es IH]; simpl; intros s s' os Hh H.
  - injection H as <- <-. auto.
  - destruct (step e s) as [[s1 o]|] eqn:E; [|discriminate].
    destruct (run es s1) as [[s2 os']|] eqn:R; [|discriminate].
    injection H as <- <-.
    destruct (step_hidden _ _ _ _ _ Hh E) as [Hh1 Ho].
    destruct (IH _ _ _ Hh1 R) as [Hh2 Hos]. auto.
Qed.

(** ** The claims *)

(** C8. The stopping flag is monotonic: from any state in which [stop_] is
    true, along every schedule, whatever the operations in it (enqueue,
    try-enqueue, pop, completion report, barrier, shutdown), [stop_] is
    still true at the end. *)
Theorem stop_is_monotonic (es : list Event) (s s' : System) (os : list Outcome) :
  stop_ (pool s) = true ->
  run es s = Some (s', os) ->
  stop_ (pool s') = true.
Proof.
  revert s s' os. induction es as [|e es IH]; simpl; intros s s' os Hs H.
  - congruence.
  - destruct (step e s) as [[s1 o]|] eqn:E; [|discriminate].
    destruct (run es s1) as [[s2 os']|] eqn:R; [|discriminate].
    injection H as <- <-. eapply IH; [|exact R].
    eapply step_stop; eauto.
Qed.

(** C3. A blocking [Enqueue] that finds [stop_] true when it holds the lock
    throws [std::runtime_error("enqueue on stopped ThreadPool")] in its
    first critical section, and the state it leaves is the state it found:
    the queue is not touched. *)
Theorem Enqueue_on_stopped_pool (s : System) (c : nat) (f : Callable) :
  callers s !! c = None ->
  stop_ (pool s) = true ->
  Enqueue_entry (pool s) = Thrown "enqueue on stopped ThreadPool" /\
  step (CallEnqueue c f) s = Some (s, Error "enqueue on stopped ThreadPool").
Proof.
  intros Hc Hs. unfold step, Enqueue_entry. rewrite Hc, Hs. simpl. auto.
Qed.

(** C5. A call of [TryEnqueue] always returns a boolean, in one transition:
    it never throws and never waits.  It returns false, leaving the state as
    it was, exactly when [stop_] is true or [tasks_.size() >= maxQueueSize_];
    otherwise it returns true and the closure for the callable is at the back
    of the queue, its packaged task has had no future taken, and nothing but
    the flag goes back to the caller. *)
Theorem TryEnqueue_never_blocks_or_throws (s : System) (c : nat) (f : Callable) :
  callers s !! c = None ->
  exists s' b,
    step (CallTryEnqueue c f) s = Some (s', Flag b) /\
    (b = false <->
       stop_ (pool s) = true \/ maxQueueSize_ (pool s) <= size (tasks_ (pool s))) /\
    (b = false -> s' = s) /\
    (b = true ->
       tasks_ (pool s') = tasks_ (pool s) ++ [closure f s] /\
       stop_ (pool s') = stop_ (pool s) /\
       activeTasks_ (pool s') = activeTasks_ (pool s) /\
       callers s' = callers s /\
       heap s' !! shared (closure f s) =
         Some {| stored := None; future_retrieved := false |}).
Proof.
  intros Hc. unfold step. rewrite Hc. simpl.
  fold (closure f s).
  destruct (TryEnqueue (closure f s) (pool s)) as [[] p] eqn:E.
  - apply TryEnqueue_true in E. destruct E as (-> & Hs & Hlt).
    eexists _, true. split; [reflexivity|].
    split; [|split]; [split; [discriminate|] | discriminate |].
    + intros [?|?]; [congruence|lia].
    + intros _. simpl. repeat split.
      rewrite lookup_app_r by reflexivity.
      rewrite Nat.sub_diag. reflexivity.
  - apply TryEnqueue_false in E. destruct E as (-> & Hor).
    exists s, false. repeat split; auto; discriminate.
Qed.

(** C6. For a worker inside [GetNextTask] in a reachable state: the worker
    stays blocked exactly while [stop_] is false and the queue is empty; with
    [stop_] true and the queue empty it gets the empty function and the pool
    state is not modified; with a task at the front it gets that task, and in
    the same critical section the task leaves the queue and [activeTasks_]
    goes up by one (no wrap-around). *)
Theorem GetNextTask_pop (s : System) (w : nat) :
  reachable s ->
  workers_ s !! w = Some Fetching ->
  (step (Work w) s = None <-> stop_ (pool s) = false /\ tasks_ (pool s) = []) /\
  (stop_ (pool s) = true -> tasks_ (pool s) = [] ->
     GetNextTask (pool s) = Some (None, pool s) /\
     exists s', step (Work w) s = Some (s', Quiet) /\ pool s' = pool s /\
                workers_ s' !! w = Some Exited) /\
  (forall t q, tasks_ (pool s) = t :: q ->
     GetNextTask (pool s) =
       Some (Some t, {| tasks_ := q; stop_ := stop_ (pool s);
                        activeTasks_ := activeTasks_ (pool s) + 1;
                        maxQueueSize_ := maxQueueSize_ (pool s) |}) /\
     exists s', step (Work w) s = Some (s', Quiet) /\
                tasks_ (pool s') = q /\
                activeTasks_ (pool s') = activeTasks_ (pool s) + 1 /\
                workers_ s' !! w = Some (Running t)).
Proof.
  intros Hr Hw. destruct (reachable_invariant s Hr) as [Ha Ht _ _].
  pose proof (busy_lookup _ _ _ Hw) as Hb. simpl in Hb.
  pose proof (lookup_lt_Some _ _ _ Hw) as Hlt.
  unfold step, work. rewrite Hw.
  unfold GetNextTask, task_or_stop, with_activeTasks, with_tasks. simpl.
  destruct (stop_ (pool s)) eqn:Hs, (tasks_ (pool s)) as [|t q] eqn:Hq; simpl.
  - split; [split; [discriminate|intros [? _]; discriminate]|].
    split; [|intros ? ? ?; discriminate].
    intros _ _. split; [reflexivity|]. eexists. split; [reflexivity|].
    simpl. split; [reflexivity|]. apply list_lookup_insert_eq, Hlt.
  - split; [split; [discriminate|intros [? _]; discriminate]|].
    split; [intros _ ?; discriminate|].
    intros t' q' E. injection E as <- <-.
    rewrite size_wrap_small by lia.
    split; [reflexivity|]. eexists. split; [reflexivity|]. simpl.
    repeat split. apply list_lookup_insert_eq, Hlt.
  - split; [split; auto|].
    split; [intros ?; discriminate|intros ? ? ?; discriminate].
  - split; [split; [discriminate|intros [_ ?]; discriminate]|].
    split; [intros ?; discriminate|].
    intros t' q' E. injection E as <- <-.
    rewrite size_wrap_small by lia.
    split; [reflexivity|]. eexists. split; [reflexivity|]. simpl.
    repeat split. apply list_lookup_insert_eq, Hlt.
Qed.

(** C4. A call of [Enqueue] that does not throw either emplaces its task at
    once and returns the future, or, the queue being full, goes to sleep in
    [wait_for]; from then on, whatever the other threads do and however full
    the queue is when the deadline passes, the timed-out wake-up is possible
    and every wake-up that ends the wait emplaces the task at the back of
    the queue and returns the future. *)
Theorem Enqueue_always_admits (s s1 : System) (c : nat) (f : Callable) (o : Outcome) :
  step (CallEnqueue c f) s = Some (s1, o) ->
  (forall what, o <> Error what) ->
  (o = Future (shared (closure f s)) /\
   tasks_ (pool s1) = tasks_ (pool s) ++ [closure f s]) \/
  (o = Quiet /\
   maxQueueSize_ (pool s) <= size (tasks_ (pool s)) /\
   pool s1 = pool s /\
   callers s1 !! c = Some (InEnqueue (closure f s)) /\
   forall es s2 os,
     Forall (fun e => forall b, e <> WakeEnqueue c b) es ->
     run es s1 = Some (s2, os) ->
     (exists s3, step (WakeEnqueue c true) s2 =
                   Some (s3, Future (shared (closure f s)))) /\
     (forall b s3 o3, step (WakeEnqueue c b) s2 = Some (s3, o3) ->
        o3 = Future (shared (closure f s)) /\
        tasks_ (pool s3) = tasks_ (pool s2) ++ [closure f s] /\
        callers s3 !! c = None)).
Proof.
  intros H Hne. simpl in H.
  destruct (callers s !! c) eqn:Hc; [discriminate|].
  fold (closure f s) in H. revert H.
  unfold Enqueue_entry, stop_or_room.
  destruct (stop_ (pool s)) eqn:Hs; simpl.
  { intros H. injection H as <- <-. exfalso. eapply Hne. reflexivity. }
  destruct (Z.geb_spec (size (tasks_ (pool s))) (maxQueueSize_ (pool s)))
    as [Hge|Hlt].
  - destruct (Z.ltb_spec (size (tasks_ (pool s))) (maxQueueSize_ (pool s)))
      as [Hlt|_]; [lia|].
    intros H. injection H as <- <-. right.
    split; [reflexivity|]. split; [lia|]. split; [reflexivity|].
    assert (Hc1 : <[c := InEnqueue (closure f s)]> (callers s) !! c
                  = Some (InEnqueue (closure f s)))
      by apply lookup_insert_eq.
    split; [exact Hc1|].
    intros es s2 os Hes Hrun.
    pose proof (run_keeps_InEnqueue _ _ _ _ _ _ Hes Hrun Hc1) as Hc2.
    split.
    + apply (WakeEnqueue_enabled s2 c _ true Hc2). auto.
    + intros b s3 o3 H3.
      destruct (WakeEnqueue_admits _ _ _ _ _ _ Hc2 H3) as (? & ? & _ & ?).
      auto.
  - intros H. injection H as <- <-. left. split; reflexivity.
Qed.

(** C9. [Enqueue] tests [stop_] only in its first critical section.  A call
    that found the pool running and the queue full sleeps in [wait_for]; the
    destructor can then set [stop_], and once [stop_] is true every wake-up
    of the sleeper, timed out or not, ends the wait without throwing: the task
    is emplaced in the queue of the stopping pool and the future is
    returned. *)
Theorem Enqueue_checks_stop_once (s : System) (c : nat) (f : Callable) :
  callers s !! c = None ->
  stop_ (pool s) = false ->
  maxQueueSize_ (pool s) <= size (tasks_ (pool s)) ->
  exists s1,
    step (CallEnqueue c f) s = Some (s1, Quiet) /\
    callers s1 !! c = Some (InEnqueue (closure f s)) /\
    (exists d s2,
       step (CallDestructor d) s1 = Some (s2, Quiet) /\
       callers s2 !! c = Some (InEnqueue (closure f s)) /\
       stop_ (pool s2) = true) /\
    forall es s2 os,
      Forall (fun e => forall b, e <> WakeEnqueue c b) es ->
      run es s1 = Some (s2, os) ->
      stop_ (pool s2) = true ->
      forall b, exists s3,
        step (WakeEnqueue c b) s2 = Some (s3, Future (shared (closure f s))) /\
        tasks_ (pool s3) = tasks_ (pool s2) ++ [closure f s] /\
        stop_ (pool s3) = true.
Proof.
  intros Hc Hs Hfull.
  assert (Hentry : Enqueue_entry (pool s) = Sleep).
  { unfold Enqueue_entry, stop_or_room. rewrite Hs. simpl.
    destruct (Z.geb_spec (size (tasks_ (pool s))) (maxQueueSize_ (pool s)))
      as [_|Hlt]; [|lia].
    destruct (Z.ltb_spec (size (tasks_ (pool s))) (maxQueueSize_ (pool s)))
      as [Hlt|_]; [lia|reflexivity]. }
  eexists. split.
  { simpl. rewrite Hc, Hentry. fold (closure f s). reflexivity. }
  assert (Hc1 : <[c := InEnqueue (closure f s)]> (callers s) !! c
                = Some (InEnqueue (closure f s)))
    by apply lookup_insert_eq.
  split; [exact Hc1|]. split.
  - set (cs := <[c := InEnqueue (closure f s)]> (callers s)) in *.
    set (d := fresh (dom cs)).
    assert (Hd : cs !! d = None)
      by (apply not_elem_of_dom, is_fresh).
    exists d. eexists. simpl. fold cs. rewrite Hd. split; [reflexivity|].
    simpl. split; [|reflexivity].
    rewrite lookup_insert_ne; [exact Hc1|]. intros ->. congruence.
  - intros es s2 os Hes Hrun Hstop b.
    pose proof (run_keeps_InEnqueue _ _ _ _ _ _ Hes Hrun Hc1) as Hc2.
    destruct (WakeEnqueue_enabled s2 c _ b Hc2) as [s3 H3]; [auto|].
    exists s3. split; [exact H3|].
    destruct (WakeEnqueue_admits _ _ _ _ _ _ Hc2 H3) as (_ & ? & ? & _).
    split; congruence.
Qed.

(** C2. In every reachable state the predicate of [WaitForAllTasks] holds
    exactly when the queue is empty and [activeTasks_] is zero, and
    - no transition lets [WaitForAllTasks] return unless the queue is empty
      and [activeTasks_] is zero in the state it is taken from;
    - a call made when both hold returns at once, and a call made otherwise
      goes to sleep on [finished_];
    - a caller found inside [WaitForAllTasks] when both hold has already been
      notified, and for as long as no thread submits a task its wake-up stays
      possible and makes the call return. *)
Theorem WaitForAllTasks_barrier (s : System) (c : nat) :
  reachable s ->
  (all_done (pool s) = true <->
     tasks_ (pool s) = [] /\ activeTasks_ (pool s) = 0) /\
  (forall e s', step e s = Some (s', Drained) ->
     tasks_ (pool s) = [] /\ activeTasks_ (pool s) = 0) /\
  (callers s !! c = None ->
     if all_done (pool s)
     then step (CallWaitForAllTasks c) s = Some (s, Drained)
     else exists s', step (CallWaitForAllTasks c) s = Some (s', Quiet) /\
                     callers s' !! c = Some (InWaitForAllTasks true)) /\
  (forall asleep,
     callers s !! c = Some (InWaitForAllTasks asleep) ->
     all_done (pool s) = true ->
     asleep = false /\
     forall es s2 os,
       Forall (fun e => submits e = false /\ e <> WakeWaitForAllTasks c) es ->
       run es s = Some (s2, os) ->
       tasks_ (pool s2) = [] /\ activeTasks_ (pool s2) = 0 /\
       exists s3, step (WakeWaitForAllTasks c) s2 = Some (s3, Drained) /\
                  callers s3 !! c = None).
Proof.
  intros Hr. pose proof (reachable_invariant s Hr) as Hi.
  split; [apply all_done_iff|]. split; [|split].
  - intros e s' H. apply step_Drained in H. apply all_done_iff, H.
  - intros Hc. simpl. rewrite Hc.
    destruct (all_done (pool s)); [reflexivity|].
    eexists. split; [reflexivity|]. simpl. apply lookup_insert_eq.
  - intros asleep Hc Hd.
    assert (asleep = false) as ->.
    { destruct asleep; [|reflexivity].
      exfalso. exact (inv_awake s Hi Hd c Hc). }
    split; [reflexivity|].
    intros es s2 os Hes Hrun.
    destruct (run_keeps_barrier _ _ _ _ _ Hi Hes Hrun Hd Hc) as [Hd2 Hc2].
    pose proof Hd2 as Hd2'. apply all_done_iff in Hd2'.
    destruct Hd2' as [Hq Hz]. split; [exact Hq|]. split; [exact Hz|].
    eexists. simpl. rewrite Hc2, Hd2. split; [reflexivity|].
    simpl. apply lookup_delete_eq.
Qed.

(** C7. The queue is first-in, first-out.  Every transition leaves the queue
    alone, or puts one task at its back, or takes one task from its front; so
    in every reachable state the tasks in the order they were emplaced are
    the tasks in the order they were popped, followed by the queue.  The
    order in which invocations complete is not tied to it: with two workers
    the task queued second can complete first. *)
Theorem queue_is_fifo :
  (forall e s s' o, step e s = Some (s', o) ->
     (tasks_ (pool s') = tasks_ (pool s) /\
      admitted s' = admitted s /\ dequeued s' = dequeued s) \/
     (exists t, tasks_ (pool s') = tasks_ (pool s) ++ [t] /\
                admitted s' = admitted s ++ [t] /\
                dequeued s' = dequeued s) \/
     (exists t, tasks_ (pool s) = t :: tasks_ (pool s') /\
                admitted s' = admitted s /\
                dequeued s' = dequeued s ++ [t])) /\
  (forall s, reachable s -> admitted s = dequeued s ++ tasks_ (pool s)) /\
  (exists s a b,
     reachable s /\ a <> b /\
     admitted s = [a; b] /\ dequeued s = [a; b] /\ executed s = [b; a]).
Proof.
  split; [exact step_queue|]. split.
  - intros s Hr. apply (inv_fifo s), reachable_invariant, Hr.
  - exists (after overtaking (construct 2 10)).
    eexists {| bound := job 1; shared := 0%nat |},
            {| bound := job 2; shared := 1%nat |}.
    split.
    { apply after_reachable, reachable_construct.
      - reflexivity.
      - split; [lia|reflexivity]. }
    split; [discriminate|]. vm_compute. auto.
Qed.

(** C10. A callable that throws, submitted through [TryEnqueue] in a
    reachable state: the packaged task built for it has had no future taken;
    along every later schedule no [Enqueue] returns a future for its shared
    state and [future_retrieved] stays false, so no thread can read what is
    stored there.  When a worker calls the closure, the exception is stored
    in that shared state, the call returns to the worker, the pool is as it
    was, and the worker goes on to [NotifyTaskCompletion] and back to
    [GetNextTask]. *)
Theorem TryEnqueue_failure_is_swallowed
    (s s1 : System) (c : nat) (f : Callable) (what : string) :
  reachable s ->
  completes f = Throws what ->
  step (CallTryEnqueue c f) s = Some (s1, Flag true) ->
  heap s1 !! shared (closure f s) =
    Some {| stored := None; future_retrieved := false |} /\
  forall es s2 os,
    run es s1 = Some (s2, os) ->
    Forall (fun o => o <> Future (shared (closure f s))) os /\
    (exists st, heap s2 !! shared (closure f s) = Some st /\
                future_retrieved st = false) /\
    forall w,
      workers_ s2 !! w = Some (Running (closure f s)) ->
      exists s3 s4,
        step (Work w) s2 = Some (s3, Quiet) /\
        heap s3 !! shared (closure f s) =
          Some {| stored := Some (Throws what); future_retrieved := false |} /\
        pool s3 = pool s2 /\
        workers_ s3 !! w = Some Completing /\
        step (Work w) s3 = Some (s4, Quiet) /\
        workers_ s4 !! w = Some Fetching.
Proof.
  intros Hr Hf H. simpl in H.
  destruct (callers s !! c) eqn:Hc; [discriminate|].
  fold (closure f s) in H.
  destruct (TryEnqueue (closure f s) (pool s)) as [[] p] eqn:E;
    [|discriminate].
  injection H as <-.
  assert (Hnew : (heap s ++ [{| stored := None; future_retrieved := false |}])
                 !! shared (closure f s)
                 = Some {| stored := None; future_retrieved := false |}).
  { simpl. rewrite lookup_app_r by reflexivity.
    rewrite Nat.sub_diag. reflexivity. }
  split; [exact Hnew|].
  intros es s2 os Hrun.
  match type of Hrun with run _ ?x = _ => set (s1 := x) in * end.
  assert (Hh : hidden (shared (closure f s)) s1).
  { split; [eexists; split; [exact Hnew|reflexivity]|].
    intros c' t' Hc'. simpl in Hc'.
    pose proof (reachable_sleepers s Hr c' t' Hc'). simpl. lia. }
  destruct (run_hidden _ _ _ _ _ Hh Hrun) as [[(st & Hst & Hfr) _] Hos].
  split; [exact Hos|]. split; [eauto|].
  intros w Hw.
  pose proof (lookup_lt_Some _ _ _ Hw) as Hlt.
  eexists. eexists. split.
  { simpl. unfold work. rewrite Hw. reflexivity. }
  simpl. split.
  { unfold invoke. rewrite list_lookup_alter_eq, Hst. simpl.
    rewrite Hf. destruct st; simpl in *; subst. reflexivity. }
  split; [reflexivity|].
  split; [apply list_lookup_insert_eq, Hlt|].
  unfold work. simpl. rewrite list_lookup_insert_eq by exact Hlt.
  split; [reflexivity|]. simpl.
  apply list_lookup_insert_eq. rewrite length_insert. exact Hlt.
Qed.

(** C1 fails on the code.  With five tasks queued, no task executing and one
    worker, the destructor makes the worker run all five tasks, in order,
    before it gets the empty function; every future is resolved and only
    then does the join return. *)
Theorem shutdown_runs_the_queued_tasks :
  length (tasks_ (pool (after five_queued (construct 1 10)))) = 5%nat /\
  activeTasks_ (pool (after five_queued (construct 1 10))) = 0 /\
  workers_ (after five_queued (construct 1 10)) = [Fetching] /\
  stop_ (pool (after [CallDestructor 0] (after five_queued (construct 1 10))))
    = true /\
  executed (after shutdown (after five_queued (construct 1 10)))
    = tasks_ (pool (after five_queued (construct 1 10))) /\
  stored <$> heap (after shutdown (after five_queued (construct 1 10)))
    = [Some (Returns 1); Some (Returns 2); Some (Returns 3);
       Some (Returns 4); Some (Returns 5)] /\
  workers_ (after shutdown (after five_queued (construct 1 10))) = [Exited] /\
  last (outcomes shutdown (after five_queued (construct 1 10)))
    = Some Destroyed.
Proof. vm_compute. repeat split. Qed.

(** ** Instances

    Each theorem above that has hypotheses, applied to a concrete pool. *)

Lemma fresh_pool_reachable : reachable fresh_pool.
Proof. apply reachable_construct; [reflexivity|split; [lia|reflexivity]]. Defined.

(** A stopped pool, a refused [TryEnqueue] and a worker leaving. *)
Lemma stop_is_monotonic_witness :
  stop_ (pool stopped_pool) = true /\
  run [CallTryEnqueue 1 (job 1); Work 0] stopped_pool =
    Some (after [CallTryEnqueue 1 (job 1); Work 0] stopped_pool,
          [Flag false; Quiet]) /\
  stop_ (pool (after [CallTryEnqueue 1 (job 1); Work 0] stopped_pool)) = true.
Proof.
  split; [reflexivity|]. split; [vm_compute; reflexivity|].
  apply (stop_is_monotonic [CallTryEnqueue 1 (job 1); Work 0] stopped_pool
           _ [Flag false; Quiet]).
  - reflexivity.
  - vm_compute. reflexivity.
Defined.

(** [Enqueue] after the destructor has set [stop_]. *)
Lemma Enqueue_on_stopped_pool_witness :
  callers stopped_pool !! 1%nat = None /\
  stop_ (pool stopped_pool) = true /\
  step (CallEnqueue 1 (job 1)) stopped_pool =
    Some (stopped_pool, Error "enqueue on stopped ThreadPool").
Proof.
  split; [vm_compute; reflexivity|]. split; [reflexivity|].
  apply (Enqueue_on_stopped_pool stopped_pool 1 (job 1)).
  - vm_compute. reflexivity.
  - reflexivity.
Defined.

(** [TryEnqueue] on a fresh pool. *)
Lemma TryEnqueue_never_blocks_or_throws_witness :
  callers fresh_pool !! 0%nat = None /\
  exists s' b, step (CallTryEnqueue 0 (job 1)) fresh_pool = Some (s', Flag b).
Proof.
  split; [reflexivity|].
  destruct (TryEnqueue_never_blocks_or_throws fresh_pool 0 (job 1))
    as (s' & b & H & _); [reflexivity|].
  exists s', b. exact H.
Defined.

(** The worker pops the only queued task. *)
Lemma GetNextTask_pop_witness :
  reachable one_queued /\
  workers_ one_queued !! 0%nat = Some Fetching /\
  exists s', step (Work 0) one_queued = Some (s', Quiet) /\
             tasks_ (pool s') = [] /\
             activeTasks_ (pool s') = activeTasks_ (pool one_queued) + 1.
Proof.
  assert (Hr : reachable one_queued)
    by (apply after_reachable, fresh_pool_reachable).
  split; [exact Hr|]. split; [reflexivity|].
  destruct (GetNextTask_pop one_queued 0 Hr eq_refl) as (_ & _ & H).
  destruct (H (closure (job 1) fresh_pool) [] eq_refl)
    as (_ & s' & Hs & Hq & Ha & _).
  exists s'. auto.
Defined.

(** Capacity one, one task queued: a second [Enqueue] sleeps, and the
    deadline admits it into the full queue. *)
Lemma Enqueue_always_admits_witness :
  step (CallEnqueue 1 (job 2)) full_pool =
    Some (after [CallEnqueue 1 (job 2)] full_pool, Quiet) /\
  (forall what, Quiet <> Error what) /\
  exists s3, step (WakeEnqueue 1 true) (after [CallEnqueue 1 (job 2)] full_pool)
             = Some (s3, Future 1).
Proof.
  split; [vm_compute; reflexivity|]. split; [discriminate|].
  destruct (Enqueue_always_admits full_pool
              (after [CallEnqueue 1 (job 2)] full_pool) 1 (job 2) Quiet)
    as [[H _]|(_ & _ & _ & _ & H)].
  - vm_compute. reflexivity.
  - discriminate.
  - discriminate.
  - destruct (H [] _ [] ltac:(constructor) eq_refl) as [H3 _]. exact H3.
Defined.

(** The same sleeper, woken after the destructor has set [stop_]. *)
Lemma Enqueue_checks_stop_once_witness :
  callers full_pool !! 1%nat = None /\
  stop_ (pool full_pool) = false /\
  maxQueueSize_ (pool full_pool) <= size (tasks_ (pool full_pool)) /\
  exists s1 s2 s3,
    step (CallEnqueue 1 (job 2)) full_pool = Some (s1, Quiet) /\
    run [CallDestructor 0] s1 = Some (s2, [Quiet]) /\
    step (WakeEnqueue 1 false) s2 = Some (s3, Future 1) /\
    stop_ (pool s3) = true /\
    tasks_ (pool s3) = tasks_ (pool s2) ++ [closure (job 2) full_pool].
Proof.
  split; [vm_compute; reflexivity|]. split; [reflexivity|].
  split; [vm_compute; discriminate|].
  destruct (Enqueue_checks_stop_once full_pool 1 (job 2))
    as (s1 & H1 & _ & _ & H).
  - vm_compute. reflexivity.
  - reflexivity.
  - vm_compute. discriminate.
  - injection H1 as <-.
    eexists. eexists.
    edestruct (H [CallDestructor 0]) as (s3 & H3 & Hq & Hs).
    + repeat constructor; discriminate.
    + vm_compute. reflexivity.
    + reflexivity.
    + exists s3. split; [reflexivity|]. split; [vm_compute; reflexivity|].
      split; [exact H3|]. split; [exact Hs|exact Hq].
Defined.

(** A caller that went to sleep in [WaitForAllTasks] while a task was
    queued, after the worker has run the task and reported it. *)
Lemma WaitForAllTasks_barrier_witness :
  reachable drained_with_waiter /\
  callers drained_with_waiter !! 1%nat = Some (InWaitForAllTasks false) /\
  exists s3, step (WakeWaitForAllTasks 1) drained_with_waiter
             = Some (s3, Drained) /\ callers s3 !! 1%nat = None.
Proof.
  assert (Hr : reachable drained_with_waiter)
    by (apply after_reachable, fresh_pool_reachable).
  split; [exact Hr|]. split; [vm_compute; reflexivity|].
  destruct (WaitForAllTasks_barrier drained_with_waiter 1 Hr)
    as (_ & _ & _ & H).
  destruct (H false) as [_ H']; [vm_compute; reflexivity|reflexivity|].
  destruct (H' [] drained_with_waiter [] ltac:(constructor) eq_refl)
    as (_ & _ & H3).
  exact H3.
Defined.

(** A throwing callable through [TryEnqueue], popped and run by the
    worker. *)
Lemma TryEnqueue_failure_is_swallowed_witness :
  reachable fresh_pool /\
  completes (failing 1) = Throws "task failed" /\
  step (CallTryEnqueue 0 (failing 1)) fresh_pool =
    Some (after [CallTryEnqueue 0 (failing 1)] fresh_pool, Flag true) /\
  exists s3 s4,
    step (Work 0)
      (after [CallTryEnqueue 0 (failing 1); Work 0] fresh_pool)
      = Some (s3, Quiet) /\
    heap s3 !! 0%nat =
      Some {| stored := Some (Throws "task failed");
              future_retrieved := false |} /\
    step (Work 0) s3 = Some (s4, Quiet) /\
    workers_ s4 !! 0%nat = Some Fetching.
Proof.
  split; [exact fresh_pool_reachable|]. split; [reflexivity|].
  split; [vm_compute; reflexivity|].
  destruct (TryEnqueue_failure_is_swallowed fresh_pool
              (after [CallTryEnqueue 0 (failing 1)] fresh_pool)
              0 (failing 1) "task failed" fresh_pool_reachable eq_refl)
    as [_ H].
  - vm_compute. reflexivity.
  - destruct (H [Work 0]
                (after [CallTryEnqueue 0 (failing 1); Work 0] fresh_pool)
                [Quiet]) as (_ & _ & Hw).
    + vm_compute. reflexivity.
    + destruct (Hw 0%nat) as (s3 & s4 & H3 & Hh & _ & _ & H4 & Hf).
      * vm_compute. reflexivity.
      * exists s3, s4. auto.
Defined.

(** * Further properties of the pool *)

(** ** Helper lemmas *)

Lemma size_snoc q t : size (q ++ [t]) = size q + 1.
Proof. unfold size. rewrite length_app. simpl. lia. Qed.

Lemma Enqueue_entry_Admit p :
  Enqueue_entry p = Admit ->
  stop_ p = false /\ size (tasks_ p) < maxQueueSize_ p.
Proof.
  unfold Enqueue_entry, stop_or_room. destruct (stop_ p); [discriminate|].
  simpl.
  destruct (Z.geb_spec (size (tasks_ p)) (maxQueueSize_ p)) as [Hge|Hlt];
    [|auto].
  destruct (Z.ltb_spec (size (tasks_ p)) (maxQueueSize_ p)) as [Hlt|_];
    [lia|discriminate].
Qed.

Lemma step_size e s s' o :
  step e s = Some (s', o) ->
  maxQueueSize_ (pool s') = maxQueueSize_ (pool s) /\
  size (tasks_ (pool s')) <=
    Z.max (size (tasks_ (pool s))) (maxQueueSize_ (pool s))
    + late_admissions [e].
Proof.
  intros H. destruct e; simpl in H; unfold work in H.
  all: repeat case_match; simplify_eq/=.
  all: repeat match goal with
       | H : Enqueue_wake _ _ _ = _ |- _ =>
           apply Enqueue_wake_emplace in H; subst
       | H : TryEnqueue _ _ = (true, _) |- _ =>
           apply TryEnqueue_true in H; destruct H as (-> & _ & ?)
       | H : Enqueue_entry _ = Admit |- _ =>
           apply Enqueue_entry_Admit in H; destruct H as [_ ?]
       | H : NotifyTaskCompletion _ = _ |- _ =>
           unfold NotifyTaskCompletion in H; simplify_eq
       | H : GetNextTask _ = _ |- _ =>
           apply GetNextTask_cases in H;
           destruct H as [(_ & _ & ?)|(t' & q & Hq' & ?)]; simplify_eq
       end.
  all: simpl; rewrite ?size_snoc; split; try reflexivity; try lia.
  match goal with H : tasks_ _ = _ :: _ |- _ => rewrite H end.
  unfold size. simpl. lia.
Qed.

Lemma late_admissions_cons e es :
  late_admissions (e :: es) = late_admissions [e] + late_admissions es /\
  0 <= late_admissions [e].
Proof. destruct e; simpl; lia. Qed.

Lemma forallb_is_exited_lookup ws w x :
  forallb is_exited ws = true -> ws !! w = Some x -> x = Exited.
Proof.
  revert w. induction ws as [|y ws IH]; intros [|w] Hall H; simpl in *;
    try discriminate; apply andb_true_iff in Hall; destruct Hall as [Hy Hall].
  - injection H as <-. destruct y; try discriminate. reflexivity.
  - eauto.
Qed.

Lemma step_exited_stays e s s' o w :
  workers_ s !! w = Some Exited ->
  step e s = Some (s', o) ->
  workers_ s' !! w = Some Exited.
Proof.
  intros Hw H. destruct e; simpl in H; unfold work in H.
  all: repeat case_match; simplify_eq/=; auto.
  all: rewrite list_lookup_insert_ne; [exact Hw|congruence].
Qed.

Lemma step_stopping e s s' o :
  stopping s -> step e s = Some (s', o) -> stopping s'.
Proof.
  intros [Hd Hx] H.
  destruct (stop_ (pool s')) eqn:Hs'; [split; auto|].
  assert (Hs : stop_ (pool s) = false).
  { destruct (stop_ (pool s)) eqn:Hs; [|reflexivity].
    rewrite (step_stop _ _ _ _ H Hs) in Hs'. discriminate. }
  assert (Hd' : forall c, callers s !! c <> Some InDestructor)
    by (intros c Hc; specialize (Hd c Hc); congruence).
  assert (Hx' : forall w, workers_ s !! w <> Some Exited)
    by (intros w Hw; specialize (Hx w Hw); congruence).
  clear Hd Hx.
  destruct e; simpl in H; unfold work in H.
  all: repeat case_match; simplify_eq/=.
  all: repeat match goal with
       | H : GetNextTask _ = _ |- _ =>
           apply GetNextTask_cases in H;
           destruct H as [(? & _ & ?)|(t' & q & Hq' & ?)]; simplify_eq
       end.
  all: try (simpl in Hs'; congruence).
  all: split; simpl; [intros c' Hc'|intros w' Hw'].
  all: try (exfalso; apply (Hx' w'); exact Hw').
  all: try (exfalso; apply (Hd' c'); exact Hc').
  all: try (exfalso; revert Hc';
            rewrite ?lookup_insert, ?lookup_delete; try case_decide;
            first [discriminate | apply Hd']).
  all: try (exfalso; apply list_lookup_insert_Some in Hw';
            destruct Hw' as [(_ & ? & _)|[_ Hw']];
            [discriminate|apply (Hx' w'); exact Hw']).
  all: try (exfalso; revert Hc'; unfold notify_finished;
            rewrite lookup_fmap;
            destruct (callers s !! c') as [[]|] eqn:E; simpl;
            try discriminate; intros _; apply (Hd' c'); exact E).
Qed.

Lemma reachable_stopping s : reachable s -> stopping s.
Proof.
  induction 1 as [threads maxQueueSize _ _|s e s' o _ IH H].
  - split; simpl.
    + intros c. rewrite lookup_empty. discriminate.
    + intros w Hw. apply lookup_replicate in Hw. destruct Hw; discriminate.
  - eapply step_stopping; eauto.
Qed.


(** ** Accounting, capacity and shutdown *)

(** X1. In every reachable state [activeTasks_] is exactly the number of
    workers that have popped a task and not yet reported its completion; it
    lies between zero and the number of threads, and the decrement in
    [NotifyTaskCompletion] by such a worker is a true subtraction: the
    counter never wraps below zero. *)
Theorem activeTasks_counts_busy_workers (s : System) :
  reachable s ->
  activeTasks_ (pool s) = busy (workers_ s) /\
  0 <= activeTasks_ (pool s) <= Z.of_nat (length (workers_ s)) /\
  forall w, workers_ s !! w = Some Completing ->
    1 <= activeTasks_ (pool s) /\
    activeTasks_ (fst (NotifyTaskCompletion (pool s)))
      = activeTasks_ (pool s) - 1.
Proof.
  intros Hr. destruct (reachable_invariant s Hr) as [Ha Ht _ _].
  pose proof (busy_bounds (workers_ s)) as Hb.
  split; [exact Ha|]. split; [lia|].
  intros w Hw. pose proof (busy_lookup _ _ _ Hw) as Hw'. simpl in Hw'.
  split; [lia|]. simpl. apply size_wrap_small. lia.
Qed.

(** X7. The capacity is exceeded only through the grace path of [Enqueue]:
    along every schedule [maxQueueSize_] does not change, and the queue is
    never longer than the larger of its initial length and [maxQueueSize_],
    plus the number of wake-ups of sleeping [Enqueue] calls in the
    schedule. *)
Theorem queue_length_bound (es : list Event) (s s' : System) (os : list Outcome) :
  run es s = Some (s', os) ->
  maxQueueSize_ (pool s') = maxQueueSize_ (pool s) /\
  size (tasks_ (pool s')) <=
    Z.max (size (tasks_ (pool s))) (maxQueueSize_ (pool s))
    + late_admissions es.
Proof.
  revert s s' os. induction es as [|e es IH]; intros s s' os H.
  - simpl in H. injection H as <- _. split; [reflexivity|]. simpl. lia.
  - simpl in H.
    destruct (step e s) as [[s1 o]|] eqn:E; [|discriminate].
    destruct (run es s1) as [[s2 os']|] eqn:R; [|discriminate].
    injection H as <- _.
    destruct (step_size _ _ _ _ E) as [Hm1 Hs1].
    destruct (IH _ _ _ R) as [Hm2 Hs2].
    destruct (late_admissions_cons e es) as [-> Hnn].
    split; [congruence|]. rewrite Hm1 in Hs2. lia.
Qed.


(** X4. A worker thread returns from its loop only after [stop_] has been
    set, and it never comes back: in a reachable state an exited worker
    implies [stop_], it has no transition, and it is still exited after
    every schedule. *)
Theorem exited_worker_is_final (s : System) (w : nat) :
  reachable s ->
  workers_ s !! w = Some Exited ->
  stop_ (pool s) = true /\
  step (Work w) s = None /\
  forall es s' os, run es s = Some (s', os) -> workers_ s' !! w = Some Exited.
Proof.
  intros Hr Hw. split; [apply (stopping_exited s (reachable_stopping s Hr) w Hw)|].
  split; [simpl; unfold work; rewrite Hw; reflexivity|].
  intros es. clear Hr. revert s Hw.
  induction es as [|e es IH]; simpl; intros s Hw s' os H.
  - injection H as <- _. exact Hw.
  - destruct (step e s) as [[s1 o]|] eqn:E; [|discriminate].
    destruct (run es s1) as [[s2 os']|] eqn:R; [|discriminate].
    injection H as <- _. eapply IH; [|exact R].
    eapply step_exited_stays; eauto.
Qed.


(** X11. Once [stop_] is set, every later call of [Enqueue] throws and every
    later call of [TryEnqueue] returns false, at whatever point of whatever
    schedule it is made. *)
Theorem submissions_after_stop_are_rejected
    (es : list Event) (s s' : System) (os : list Outcome) :
  stop_ (pool s) = true ->
  run es s = Some (s', os) ->
  forall i e o, es !! i = Some e -> os !! i = Some o ->
    (forall c f, e = CallEnqueue c f ->
                 o = Error "enqueue on stopped ThreadPool") /\
    (forall c f, e = CallTryEnqueue c f -> o = Flag false).
Proof.
  revert s s' os. induction es as [|e es IH]; simpl; intros s s' os Hs H i e' o'.
  - intros Hi. discriminate.
  - destruct (step e s) as [[s1 o]|] eqn:E; [|discriminate].
    destruct (run es s1) as [[s2 os']|] eqn:R; [|discriminate].
    injection H as <- <-.
    destruct i as [|i]; simpl.
    + intros He Ho. injection He as <-. injection Ho as <-.
      split; intros c f ->; simpl in E;
        destruct (callers s !! c); try discriminate.
      * unfold Enqueue_entry in E. rewrite Hs in E. congruence.
      * unfold TryEnqueue in E. rewrite Hs in E. congruence.
    + apply (IH s1 s2 os'); [|exact R].
      eapply step_stop; eauto.
Qed.

(** One turn of the worker loop on a non-empty queue: pop, call, report. *)
Lemma drain_one s w t q :
  reachable s ->
  workers_ s !! w = Some Fetching ->
  tasks_ (pool s) = t :: q ->
  exists s3,
    run [Work w; Work w; Work w] s = Some (s3, [Quiet; Quiet; Quiet]) /\
    tasks_ (pool s3) = q /\
    executed s3 = executed s ++ [t] /\
    dequeued s3 = dequeued s ++ [t] /\
    workers_ s3 = workers_ s /\
    stop_ (pool s3) = stop_ (pool s) /\
    activeTasks_ (pool s3) = activeTasks_ (pool s).
Proof.
  intros Hr Hw Hq. destruct (reachable_invariant s Hr) as [Ha Ht _ _].
  pose proof (busy_lookup _ _ _ Hw) as Hb. simpl in Hb.
  pose proof (busy_bounds (workers_ s)) as Hb'.
  pose proof (lookup_lt_Some _ _ _ Hw) as Hlt.
  unfold run, step, work. rewrite Hw.
  unfold GetNextTask, task_or_stop. rewrite Hq. simpl.
  rewrite orb_true_r, andb_false_r.
  simpl. rewrite list_lookup_insert_eq by exact Hlt.
  simpl. rewrite list_lookup_insert_eq by (rewrite length_insert; exact Hlt).
  eexists. split; [reflexivity|]. simpl.
  rewrite !list_insert_insert_eq, (list_insert_id _ _ _ Hw).
  repeat split.
  rewrite (size_wrap_small (_ + 1)) by lia.
  rewrite size_wrap_small by lia. lia.
Qed.

Lemma run_app es1 es2 s s1 s2 os1 os2 :
  run es1 s = Some (s1, os1) ->
  run es2 s1 = Some (s2, os2) ->
  run (es1 ++ es2) s = Some (s2, os1 ++ os2).
Proof.
  revert s s1 os1. induction es1 as [|e es1 IH]; simpl; intros s s1 os1 H1 H2.
  - injection H1 as <- <-. exact H2.
  - destruct (step e s) as [[s' o]|] eqn:E; [|discriminate].
    destruct (run es1 s') as [[s'' os']|] eqn:R; [|discriminate].
    injection H1 as <- <-. rewrite (IH _ _ _ R H2). reflexivity.
Qed.

Lemma drain_queue s w :
  reachable s ->
  workers_ s !! w = Some Fetching ->
  exists s',
    run (replicate (3 * length (tasks_ (pool s))) (Work w)) s =
      Some (s', replicate (3 * length (tasks_ (pool s))) Quiet) /\
    tasks_ (pool s') = [] /\
    executed s' = executed s ++ tasks_ (pool s) /\
    dequeued s' = dequeued s ++ tasks_ (pool s) /\
    workers_ s' = workers_ s /\
    stop_ (pool s') = stop_ (pool s) /\
    activeTasks_ (pool s') = activeTasks_ (pool s).
Proof.
  remember (tasks_ (pool s)) as q eqn:Hq. revert s Hq.
  induction q as [|t q IH]; intros s Hq Hr Hw.
  - exists s. simpl. rewrite !app_nil_r. repeat split; auto.
  - destruct (drain_one s w t q Hr Hw (eq_sym Hq))
      as (s3 & Hrun & Hq3 & He3 & Hd3 & Hw3 & Hs3 & Ha3).
    assert (Hr3 : reachable s3) by (eapply run_reachable; eauto).
    assert (Hw3' : workers_ s3 !! w = Some Fetching) by (rewrite Hw3; exact Hw).
    destruct (IH s3 (eq_sym Hq3) Hr3 Hw3')
      as (s' & Hrun' & Hq' & He' & Hd' & Hw' & Hs' & Ha').
    exists s'.
    replace (3 * length (t :: q))%nat with (3 + 3 * length q)%nat
      by (simpl; lia).
    rewrite !replicate_add. split.
    { exact (run_app _ _ _ _ _ _ _ Hrun Hrun'). }
    rewrite He', Hd', He3, Hd3, <- !app_assoc. simpl.
    repeat split; congruence.
Qed.

(** With [stop_] set and nothing queued, a worker in [GetNextTask] exits. *)
Lemma work_exit s w :
  workers_ s !! w = Some Fetching ->
  stop_ (pool s) = true ->
  tasks_ (pool s) = [] ->
  exists s', step (Work w) s = Some (s', Quiet) /\
             workers_ s' = <[w := Exited]> (workers_ s) /\
             pool s' = pool s.
Proof.
  intros Hw Hs Hq. simpl. unfold work. rewrite Hw.
  unfold GetNextTask, task_or_stop. rewrite Hq, Hs. simpl.
  eexists. split; [reflexivity|]. split; reflexivity.
Qed.

(** X8. A worker that is in [GetNextTask] drains the queue, whether or not
    [stop_] is set: left to itself it pops, calls and reports every queued
    task, front to back, three transitions a task, leaving the queue empty
    and [activeTasks_], [stop_] and the other threads as they were; if
    [stop_] is set its next transition is the exit. *)
Theorem worker_drains_queue (s : System) (w : nat) :
  reachable s ->
  workers_ s !! w = Some Fetching ->
  exists s',
    run (replicate (3 * length (tasks_ (pool s))) (Work w)) s =
      Some (s', replicate (3 * length (tasks_ (pool s))) Quiet) /\
    tasks_ (pool s') = [] /\
    executed s' = executed s ++ tasks_ (pool s) /\
    dequeued s' = dequeued s ++ tasks_ (pool s) /\
    workers_ s' = workers_ s /\
    stop_ (pool s') = stop_ (pool s) /\
    activeTasks_ (pool s') = activeTasks_ (pool s) /\
    (stop_ (pool s) = true ->
       exists s'', step (Work w) s' = Some (s'', Quiet) /\
                   workers_ s'' !! w = Some Exited).
Proof.
  intros Hr Hw.
  destruct (drain_queue s w Hr Hw)
    as (s' & Hrun & Hq & He & Hd & Hw' & Hs' & Ha').
  exists s'. do 7 (split; [assumption|]).
  intros Hs.
  destruct (work_exit s' w) as (s'' & Hstep & Hw'' & _);
    [rewrite Hw'; exact Hw|congruence|exact Hq|].
  exists s''. split; [exact Hstep|]. rewrite Hw''.
  apply list_lookup_insert_eq. rewrite Hw'. eapply lookup_lt_Some, Hw.
Qed.

(** ** Ownership of tasks and shared states *)

Lemma running_insert ws w x y :
  ws !! w = Some x ->
  running (<[w := y]> ws) ++ held x ≡ₚ running ws ++ held y.
Proof.
  revert w. induction ws as [|z ws IH]; intros [|w] H; simpl in *;
    try discriminate.
  - injection H as ->. rewrite <- !app_assoc.
    rewrite (Permutation_app_comm (running ws) (held x)).
    rewrite (Permutation_app_comm (running ws) (held y)).
    rewrite !app_assoc. apply Permutation_app_tail, Permutation_app_comm.
  - rewrite <- !app_assoc. apply Permutation_app_head, IH, H.
Qed.

Lemma running_lookup ws w t : ws !! w = Some (Running t) -> t ∈ running ws.
Proof.
  revert w. induction ws as [|z ws IH]; intros [|w] H; simpl in *;
    try discriminate.
  - injection H as ->. simpl. apply list_elem_of_here.
  - apply elem_of_app. right. eauto.
Qed.

Lemma notify_finished_InEnqueue cs c t :
  notify_finished cs !! c = Some (InEnqueue t) <->
  cs !! c = Some (InEnqueue t).
Proof.
  unfold notify_finished. rewrite lookup_fmap.
  destruct (cs !! c) as [[]|]; simpl; split; congruence.
Qed.

Lemma popped_admitted s t :
  invariant s -> ownership s ->
  t ∈ executed s ++ running (workers_ s) -> t ∈ admitted s.
Proof.
  intros Hi Ho Ht. rewrite (inv_fifo s Hi). apply elem_of_app. left.
  rewrite (own_split s Ho). exact Ht.
Qed.

Lemma popped_NoDup s :
  invariant s -> ownership s ->
  NoDup (shared <$> (executed s ++ running (workers_ s))).
Proof.
  intros Hi Ho. rewrite <- (own_split s Ho).
  pose proof (own_nodup s Ho) as Hn.
  rewrite (inv_fifo s Hi), fmap_app in Hn.
  apply NoDup_app in Hn. apply Hn.
Qed.

Lemma extends_make_packaged_task (h : Heap) :
  extends h (snd (make_packaged_task h)).
Proof.
  simpl. split; [rewrite length_app; simpl; lia|]. split.
  - intros a Ha. apply lookup_app_l, Ha.
  - intros st. rewrite lookup_app_r by reflexivity.
    rewrite Nat.sub_diag. simpl. intros E. injection E as <-. reflexivity.
Qed.

Lemma extends_get_future (h : Heap) :
  extends h (get_future (length h) (snd (make_packaged_task h))).
Proof.
  destruct (extends_make_packaged_task h) as (Hl & Ho & Hn).
  unfold get_future. split; [rewrite length_alter; exact Hl|]. split.
  - intros a Ha. rewrite list_lookup_alter_ne by lia. apply Ho, Ha.
  - intros st. rewrite list_lookup_alter_eq.
    destruct (snd (make_packaged_task h) !! length h) as [st0|] eqn:E;
      simpl; [|discriminate].
    intros E'. injection E' as <-. simpl. apply Hn. reflexivity.
Qed.

(** A task with a fresh shared state is emplaced. *)
Lemma ownership_emplace s h' t p' :
  ownership s -> extends (heap s) h' -> shared t = length (heap s) ->
  ownership (log_admitted t (set_pool p' (set_heap h' s))).
Proof.
  intros [Hsp Hnd Hal Hsl Hinj Hres Hpen] (Hlen & Hold & Hnew) Ht.
  split; simpl; auto.
  - rewrite fmap_app. apply NoDup_app. split; [exact Hnd|].
    split; [|apply NoDup_singleton].
    intros x Hx Hin. apply list_elem_of_singleton in Hin. subst x.
    apply list_elem_of_fmap in Hx. destruct Hx as (t0 & Heq & Ht0).
    specialize (Hal _ Ht0). lia.
  - intros t0 Ht0. apply elem_of_app in Ht0. destruct Ht0 as [Ht0|Ht0].
    + specialize (Hal _ Ht0). lia.
    + apply list_elem_of_singleton in Ht0. subst t0. lia.
  - intros c0 t0 Hc0. destruct (Hsl _ _ Hc0) as [Hlt Hnin].
    split; [lia|]. rewrite fmap_app. intros Hin.
    apply elem_of_app in Hin. destruct Hin as [Hin|Hin]; [auto|].
    apply list_elem_of_singleton in Hin. lia.
  - intros t0 Ht0. destruct (Hres _ Ht0) as (st & Hst & Hs).
    exists st. split; [|exact Hs]. rewrite Hold; [exact Hst|].
    eapply lookup_lt_Some, Hst.
  - intros a st Hst Hne.
    destruct (decide (a < length (heap s))%nat) as [Hlt|Hge].
    + rewrite Hold in Hst by exact Hlt. eauto.
    + apply lookup_lt_Some in Hst as Hlt.
      assert (a = length (heap s)) as -> by lia.
      exfalso. apply Hne. eapply Hnew, Hst.
Qed.

(** A caller with a fresh shared state goes to sleep in [Enqueue]. *)
Lemma ownership_sleep s h' t c :
  ownership s -> extends (heap s) h' -> shared t = length (heap s) ->
  ownership (set_callers (<[c := InEnqueue t]> (callers s)) (set_heap h' s)).
Proof.
  intros [Hsp Hnd Hal Hsl Hinj Hres Hpen] (Hlen & Hold & Hnew) Ht.
  split; simpl; auto.
  - intros t0 Ht0. specialize (Hal _ Ht0). lia.
  - intros c0 t0. rewrite lookup_insert. case_decide.
    + intros E. injection E as <-. split; [lia|].
      intros Hin. apply list_elem_of_fmap in Hin.
      destruct Hin as (t0 & Heq & Ht0). specialize (Hal _ Ht0). lia.
    + intros Hc0. destruct (Hsl _ _ Hc0). split; [lia|assumption].
  - intros c1 c2 t1 t2. rewrite !lookup_insert.
    repeat case_decide; subst; auto; intros E1 E2 Heq; simplify_eq.
    + destruct (Hsl _ _ E2). lia.
    + destruct (Hsl _ _ E1). lia.
    + eauto.
  - intros t0 Ht0. destruct (Hres _ Ht0) as (st & Hst & Hs).
    exists st. split; [|exact Hs]. rewrite Hold; [exact Hst|].
    eapply lookup_lt_Some, Hst.
  - intros a st Hst Hne.
    destruct (decide (a < length (heap s))%nat) as [Hlt|Hge].
    + rewrite Hold in Hst by exact Hlt. eauto.
    + apply lookup_lt_Some in Hst as Hlt.
      assert (a = length (heap s)) as -> by lia.
      exfalso. apply Hne. eapply Hnew, Hst.
Qed.

(** A change that touches neither the heap nor the histories, keeps the
    held tasks and adds no sleeper. *)
Lemma ownership_frame s s' :
  ownership s ->
  heap s' = heap s -> admitted s' = admitted s ->
  dequeued s' = dequeued s -> executed s' = executed s ->
  running (workers_ s') ≡ₚ running (workers_ s) ->
  (forall c t, callers s' !! c = Some (InEnqueue t) ->
               callers s !! c = Some (InEnqueue t)) ->
  ownership s'.
Proof.
  intros [Hsp Hnd Hal Hsl Hinj Hres Hpen] Hh Ha Hd He Hr Hc.
  split; rewrite ?Hh, ?Ha, ?Hd, ?He, ?Hr; eauto.
Qed.

Lemma running_insert_idle ws w x y :
  ws !! w = Some x -> held x = [] -> held y = [] ->
  running (<[w := y]> ws) ≡ₚ running ws.
Proof.
  intros H Hx Hy. pose proof (running_insert ws w x y H) as Hp.
  rewrite Hx, Hy, !app_nil_r in Hp. exact Hp.
Qed.

Lemma step_ownership e s s' o :
  invariant s -> ownership s -> step e s = Some (s', o) -> ownership s'.
Proof.
  intros Hi Ho H.
  pose proof (fun t => popped_admitted s t Hi Ho) as Hpa.
  pose proof (popped_NoDup s Hi Ho) as Hpn.
  destruct e; simpl in H; unfold work in H.
  all: repeat case_match; simplify_eq/=.
  all: repeat match goal with
       | H : Enqueue_wake _ _ _ = _ |- _ =>
           apply Enqueue_wake_emplace in H; subst
       | H : TryEnqueue _ _ = (true, _) |- _ =>
           apply TryEnqueue_true in H; destruct H as (-> & _ & _)
       | H : NotifyTaskCompletion _ = _ |- _ =>
           unfold NotifyTaskCompletion in H; simplify_eq
       | H : GetNextTask _ = _ |- _ =>
           apply GetNextTask_cases in H;
           destruct H as [(_ & _ & ?)|(t' & q & Hq' & ?)]; simplify_eq
       end.
  all: try assumption.
  all: try (apply ownership_emplace;
            [assumption
            |first [apply extends_get_future | apply extends_make_packaged_task]
            |reflexivity]).
  all: try (apply ownership_sleep;
            [assumption|apply extends_get_future|reflexivity]).
  all: try (apply (ownership_frame s); simpl; auto;
            try (eapply running_insert_idle; eauto; fail);
            intros c' t'; unfold notify_finished;
            rewrite ?lookup_insert, ?lookup_delete, ?lookup_fmap;
            try case_decide; try congruence;
            destruct (callers s !! c') as [[]|]; simpl; congruence).
  - (* a sleeping [Enqueue] wakes and emplaces its task *)
    destruct Ho as [Hsp Hnd Hal Hsl Hinj Hres Hpen].
    match goal with H : callers s !! c = Some (InEnqueue t) |- _ =>
      rename H into Hc end.
    destruct (Hsl _ _ Hc) as [Hlt Hnin].
    split; simpl; auto.
    + rewrite fmap_app. apply NoDup_app. split; [exact Hnd|].
      split; [|apply NoDup_singleton].
      intros x Hx Hin. apply list_elem_of_singleton in Hin. subst x. auto.
    + intros t0 Ht0. apply elem_of_app in Ht0. destruct Ht0 as [Ht0|Ht0].
      * auto.
      * apply list_elem_of_singleton in Ht0. subst t0. exact Hlt.
    + intros c0 t0. rewrite lookup_delete. case_decide; [discriminate|].
      intros Hc0. destruct (Hsl _ _ Hc0) as [Hlt0 Hnin0].
      split; [exact Hlt0|]. rewrite fmap_app. intros Hin.
      apply elem_of_app in Hin. destruct Hin as [Hin|Hin]; [auto|].
      apply list_elem_of_singleton in Hin.
      pose proof (Hinj _ _ _ _ Hc0 Hc Hin). congruence.
    + intros c1 c2 t1 t2. rewrite !lookup_delete.
      repeat case_decide; try discriminate. apply Hinj.
  - (* a worker pops a task *)
    destruct Ho as [Hsp Hnd Hal Hsl Hinj Hres Hpen].
    match goal with H : workers_ s !! w = Some Fetching |- _ =>
      pose proof (running_insert _ _ _ (Running t') H) as Hp end.
    simpl in Hp. rewrite app_nil_r in Hp.
    split; simpl; auto.
    rewrite Hp, Hsp, app_assoc. reflexivity.
  - (* a worker calls its task *)
    destruct Ho as [Hsp Hnd Hal Hsl Hinj Hres Hpen].
    match goal with H : workers_ s !! w = Some (Running t) |- _ =>
      pose proof (running_insert _ _ _ Completing H) as Hp;
      pose proof (running_lookup _ _ _ H) as Hrun end.
    simpl in Hp. rewrite app_nil_r in Hp.
    assert (Hin : t ∈ admitted s) by (apply Hpa, elem_of_app; auto).
    rewrite fmap_app in Hpn. apply NoDup_app in Hpn.
    destruct Hpn as (_ & Hdisj & _).
    split; simpl; auto.
    + rewrite Hsp, <- Hp, <- !app_assoc.
      apply Permutation_app_head, Permutation_app_comm.
    + intros t0 Ht0. unfold invoke. rewrite length_alter. auto.
    + intros c0 t0 Hc0. unfold invoke. rewrite length_alter. eauto.
    + intros t0 Ht0. apply elem_of_app in Ht0. destruct Ht0 as [Ht0|Ht0].
      * destruct (Hres _ Ht0) as (st & Hst & Hs). exists st.
        split; [|exact Hs]. unfold invoke.
        rewrite list_lookup_alter_ne; [exact Hst|].
        intros E. apply (Hdisj (shared t0)).
        -- apply list_elem_of_fmap_2, Ht0.
        -- rewrite <- E. apply list_elem_of_fmap_2, Hrun.
      * apply list_elem_of_singleton in Ht0. subst t0.
        destruct (lookup_lt_is_Some_2 (heap s) (shared t) (Hal _ Hin))
          as [st Hst].
        eexists. unfold invoke. rewrite list_lookup_alter_eq, Hst. simpl.
        split; reflexivity.
    + intros a st. unfold invoke. rewrite fmap_app.
      destruct (decide (shared t = a)) as [<-|Hne].
      * intros _ _. apply elem_of_app. right.
        apply list_elem_of_singleton. reflexivity.
      * rewrite list_lookup_alter_ne by exact Hne. intros Hst Hs.
        apply elem_of_app. left. eauto.
Qed.

Lemma construct_ownership threads maxQueueSize :
  ownership (construct threads maxQueueSize).
Proof.
  assert (Hrun : running (replicate threads Fetching) = []).
  { induction threads as [|n IH]; simpl; auto. }
  split; simpl.
  - rewrite Hrun. reflexivity.
  - apply NoDup_nil. exact I.
  - intros t Ht. apply elem_of_nil in Ht. contradiction.
  - intros c t. rewrite lookup_empty. discriminate.
  - intros c c' t t'. rewrite lookup_empty. discriminate.
  - intros t Ht. apply elem_of_nil in Ht. contradiction.
  - intros a st Hst. discriminate.
Qed.

Lemma reachable_ownership s : reachable s -> ownership s.
Proof.
  induction 1 as [threads maxQueueSize _ _|s e s' o Hr IH H].
  - apply construct_ownership.
  - eapply step_ownership; eauto using reachable_invariant.
Qed.


Lemma busy_zero_running ws : busy ws = 0 -> running ws = [].
Proof.
  induction ws as [|x ws IH]; simpl; [reflexivity|].
  pose proof (busy_bounds ws) as Hb.
  destruct x; simpl; intros H; try lia; apply IH; lia.
Qed.

Lemma all_exited_idle ws :
  forallb is_exited ws = true -> busy ws = 0 /\ running ws = [].
Proof.
  induction ws as [|x ws IH]; simpl; [auto|].
  intros H. apply andb_true_iff in H. destruct H as [Hx H].
  destruct x; try discriminate. simpl. apply IH, H.
Qed.

Lemma step_futures e s s' o :
  step e s = Some (s', o) ->
  exists l, admitted s' = admitted s ++ l /\
            futures [o] `sublist_of` shared <$> l.
Proof.
  intros H. destruct e; simpl in H; unfold work in H.
  all: repeat case_match; simplify_eq/=.
  all: try (exists []; rewrite app_nil_r; split; [reflexivity|constructor]).
  all: eexists [_]; split; [reflexivity|]; simpl;
       repeat constructor.
Qed.

Lemma futures_app os1 os2 : futures (os1 ++ os2) = futures os1 ++ futures os2.
Proof.
  induction os1 as [|o os1 IH]; simpl; [reflexivity|].
  destruct o; simpl; rewrite IH; reflexivity.
Qed.

Lemma run_futures es s s' os :
  run es s = Some (s', os) ->
  exists l, admitted s' = admitted s ++ l /\
            futures os `sublist_of` shared <$> l.
Proof.
  revert s s' os. induction es as [|e es IH]; simpl; intros s s' os H.
  - injection H as <- <-. exists []. rewrite app_nil_r.
    split; [reflexivity|constructor].
  - destruct (step e s) as [[s1 o]|] eqn:E; [|discriminate].
    destruct (run es s1) as [[s2 os']|] eqn:R; [|discriminate].
    injection H as <- <-.
    destruct (step_futures _ _ _ _ E) as (l1 & Ha1 & Hf1).
    destruct (IH _ _ _ R) as (l2 & Ha2 & Hf2).
    exists (l1 ++ l2). split; [rewrite Ha2, Ha1, app_assoc; reflexivity|].
    change (o :: os') with ([o] ++ os').
    rewrite futures_app, fmap_app. apply sublist_app; assumption.
Qed.

(** X2. Tasks are conserved and never duplicated: in every reachable state
    the tasks ever emplaced are, up to order, the tasks executed, the tasks
    held by workers and the tasks still queued; they have pairwise different
    shared states, so no task is popped by two workers or executed twice. *)
Theorem tasks_are_conserved (s : System) :
  reachable s ->
  admitted s ≡ₚ executed s ++ running (workers_ s) ++ tasks_ (pool s) /\
  NoDup (shared <$> admitted s) /\
  NoDup (executed s ++ running (workers_ s) ++ tasks_ (pool s)).
Proof.
  intros Hr. pose proof (reachable_invariant s Hr) as Hi.
  pose proof (reachable_ownership s Hr) as Ho.
  assert (Hp : admitted s
               ≡ₚ executed s ++ running (workers_ s) ++ tasks_ (pool s)).
  { rewrite (inv_fifo s Hi), (own_split s Ho), <- app_assoc. reflexivity. }
  split; [exact Hp|]. split; [apply (own_nodup s Ho)|].
  rewrite <- Hp. eapply NoDup_fmap_1, (own_nodup s Ho).
Qed.


(** X5. When the destructor's join returns from a reachable state, [stop_]
    is set, every worker has exited, [activeTasks_] is zero, and every task
    that was ever popped has been executed and has its result stored: no
    task is cut off in the middle. *)
Theorem destructor_returns_after_running_tasks_finish
    (s s' : System) (c : nat) :
  reachable s ->
  step (JoinWorkers c) s = Some (s', Destroyed) ->
  stop_ (pool s) = true /\
  (forall w x, workers_ s !! w = Some x -> x = Exited) /\
  activeTasks_ (pool s) = 0 /\
  dequeued s ≡ₚ executed s /\
  forall t, t ∈ dequeued s ->
    exists st, heap s !! shared t = Some st /\
               stored st = Some (completes (bound t)).
Proof.
  intros Hr H. pose proof (reachable_invariant s Hr) as Hi.
  pose proof (reachable_ownership s Hr) as Ho.
  simpl in H.
  destruct (callers s !! c) as [[]|] eqn:Hc; try discriminate.
  destruct (forallb is_exited (workers_ s)) eqn:Hall; [|discriminate].
  destruct (all_exited_idle _ Hall) as [Hb Hrun].
  assert (Hp : dequeued s ≡ₚ executed s)
    by (rewrite (own_split s Ho), Hrun, app_nil_r; reflexivity).
  split; [apply (stopping_destructor s (reachable_stopping s Hr) c Hc)|].
  split; [intros w x; apply forallb_is_exited_lookup, Hall|].
  split; [rewrite (inv_active s Hi); exact Hb|].
  split; [exact Hp|].
  intros t Ht. apply (own_result s Ho). rewrite <- Hp. exact Ht.
Qed.

(** X10. When [WaitForAllTasks] returns from a reachable state, every task
    emplaced so far has been executed and its result is stored in its shared
    state. *)
Theorem WaitForAllTasks_returns_after_all_tasks_ran
    (s s' : System) (e : Event) :
  reachable s ->
  step e s = Some (s', Drained) ->
  admitted s ≡ₚ executed s /\
  forall t, t ∈ admitted s ->
    exists st, heap s !! shared t = Some st /\
               stored st = Some (completes (bound t)).
Proof.
  intros Hr H. pose proof (reachable_invariant s Hr) as Hi.
  pose proof (reachable_ownership s Hr) as Ho.
  apply step_Drained in H. destruct H as (Hd & _ & _).
  apply all_done_iff in Hd. destruct Hd as [Hq Hz].
  rewrite (inv_active s Hi) in Hz.
  assert (Hp : admitted s ≡ₚ executed s).
  { rewrite (inv_fifo s Hi), (own_split s Ho), Hq,
      (busy_zero_running _ Hz), !app_nil_r. reflexivity. }
  split; [exact Hp|].
  intros t Ht. apply (own_result s Ho). rewrite <- Hp. exact Ht.
Qed.

(** X12. Every call of [Enqueue] gets a future of its own: along a schedule
    from a reachable state the futures returned are pairwise different, and
    each belongs to a task that has been emplaced. *)
Theorem Enqueue_futures_are_distinct
    (es : list Event) (s s' : System) (os : list Outcome) :
  reachable s ->
  run es s = Some (s', os) ->
  NoDup (futures os) /\
  forall a, a ∈ futures os -> exists t, t ∈ admitted s' /\ shared t = a.
Proof.
  intros Hr H.
  pose proof (reachable_ownership s' (run_reachable _ _ _ _ Hr H)) as Ho.
  destruct (run_futures _ _ _ _ H) as (l & Ha & Hf).
  pose proof (own_nodup s' Ho) as Hn.
  rewrite Ha, fmap_app in Hn. apply NoDup_app in Hn.
  destruct Hn as (_ & _ & Hn).
  split; [eapply sublist_NoDup; eauto|].
  intros a Hin. apply (sublist_subseteq _ _ Hf) in Hin.
  apply list_elem_of_fmap in Hin. destruct Hin as (t & -> & Ht).
  exists t. split; [|reflexivity]. rewrite Ha. apply elem_of_app. auto.
Qed.

(** ** Shutdown completes *)

Lemma run_cons e es s s1 s2 o os :
  step e s = Some (s1, o) ->
  run es s1 = Some (s2, os) ->
  run (e :: es) s = Some (s2, o :: os).
Proof. intros H1 H2. simpl. rewrite H1, H2. reflexivity. Qed.

Lemma run_stop es s s' os :
  run es s = Some (s', os) -> stop_ (pool s) = true -> stop_ (pool s') = true.
Proof.
  revert s s' os. induction es as [|e es IH]; simpl; intros s s' os H Hs.
  - injection H as <- _. exact Hs.
  - destruct (step e s) as [[s1 o]|] eqn:E; [|discriminate].
    destruct (run es s1) as [[s2 os']|] eqn:R; [|discriminate].
    injection H as <- _. eapply IH; [exact R|]. eapply step_stop; eauto.
Qed.

Lemma exit_from_Fetching s w :
  reachable s -> stop_ (pool s) = true ->
  workers_ s !! w = Some Fetching ->
  exists n s',
    run (replicate n (Work w)) s = Some (s', replicate n Quiet) /\
    workers_ s' = <[w := Exited]> (workers_ s).
Proof.
  intros Hr Hs Hw.
  destruct (drain_queue s w Hr Hw)
    as (s1 & Hrun & Hq & _ & _ & Hw1 & Hs1 & _).
  destruct (work_exit s1 w) as (s2 & Hstep & Hw2 & _);
    [rewrite Hw1; exact Hw|congruence|exact Hq|].
  exists (3 * length (tasks_ (pool s)) + 1)%nat, s2.
  rewrite !replicate_add. split.
  - eapply run_app; [exact Hrun|]. eapply run_cons; [exact Hstep|reflexivity].
  - rewrite Hw2, Hw1. reflexivity.
Qed.

Lemma exit_from_Completing s w :
  reachable s -> stop_ (pool s) = true ->
  workers_ s !! w = Some Completing ->
  exists n s',
    run (replicate n (Work w)) s = Some (s', replicate n Quiet) /\
    workers_ s' = <[w := Exited]> (workers_ s).
Proof.
  intros Hr Hs Hw.
  pose proof (lookup_lt_Some _ _ _ Hw) as Hlt.
  destruct (step (Work w) s) as [[s1 o]|] eqn:Hstep.
  2: { simpl in Hstep. unfold work in Hstep. rewrite Hw in Hstep.
       destruct (NotifyTaskCompletion (pool s)). discriminate. }
  assert (Hw1 : workers_ s1 = <[w := Fetching]> (workers_ s) /\ o = Quiet).
  { simpl in Hstep. unfold work in Hstep. rewrite Hw in Hstep.
    destruct (NotifyTaskCompletion (pool s)). injection Hstep as <- <-.
    auto. }
  destruct Hw1 as [Hw1 ->].
  destruct (exit_from_Fetching s1 w) as (n & s2 & Hrun & Hw2).
  - eapply reachable_step; eauto.
  - eapply step_stop; eauto.
  - rewrite Hw1. apply list_lookup_insert_eq, Hlt.
  - exists (S n), s2. split.
    + apply (run_cons _ _ _ _ _ _ _ Hstep Hrun).
    + rewrite Hw2, Hw1. apply list_insert_insert_eq.
Qed.

Lemma exit_from_Running s w t :
  reachable s -> stop_ (pool s) = true ->
  workers_ s !! w = Some (Running t) ->
  exists n s',
    run (replicate n (Work w)) s = Some (s', replicate n Quiet) /\
    workers_ s' = <[w := Exited]> (workers_ s).
Proof.
  intros Hr Hs Hw.
  pose proof (lookup_lt_Some _ _ _ Hw) as Hlt.
  assert (Hstep : exists s1, step (Work w) s = Some (s1, Quiet) /\
                             workers_ s1 = <[w := Completing]> (workers_ s)).
  { simpl. unfold work. rewrite Hw. eexists. split; reflexivity. }
  destruct Hstep as (s1 & Hstep & Hw1).
  destruct (exit_from_Completing s1 w) as (n & s2 & Hrun & Hw2).
  - eapply reachable_step; eauto.
  - eapply step_stop; eauto.
  - rewrite Hw1. apply list_lookup_insert_eq, Hlt.
  - exists (S n), s2. split.
    + apply (run_cons _ _ _ _ _ _ _ Hstep Hrun).
    + rewrite Hw2, Hw1. apply list_insert_insert_eq.
Qed.

Lemma worker_can_exit s w :
  reachable s -> stop_ (pool s) = true ->
  (w < length (workers_ s))%nat ->
  exists n s',
    run (replicate n (Work w)) s = Some (s', replicate n Quiet) /\
    workers_ s' = <[w := Exited]> (workers_ s).
Proof.
  intros Hr Hs Hlt.
  destruct (lookup_lt_is_Some_2 _ _ Hlt) as [x Hw].
  destruct x.
  - apply exit_from_Fetching; assumption.
  - eapply exit_from_Running; eassumption.
  - apply exit_from_Completing; assumption.
  - exists 0%nat, s. split; [reflexivity|].
    symmetry. apply list_insert_id, Hw.
Qed.

Lemma Forall_is_work_replicate n w :
  Forall (fun e => is_work e = true) (replicate n (Work w)).
Proof. induction n; simpl; constructor; auto. Qed.

Lemma workers_can_exit s k :
  reachable s -> stop_ (pool s) = true ->
  (k <= length (workers_ s))%nat ->
  exists es s' os,
    Forall (fun e => is_work e = true) es /\
    run es s = Some (s', os) /\
    length (workers_ s') = length (workers_ s) /\
    forall w, (w < k)%nat -> workers_ s' !! w = Some Exited.
Proof.
  intros Hr Hs. induction k as [|k IH]; intros Hk.
  - exists [], s, []. split; [constructor|]. split; [reflexivity|].
    split; [reflexivity|]. intros w Hw. lia.
  - destruct IH as (es & s1 & os & Hes & Hrun & Hlen & Hex); [lia|].
    destruct (worker_can_exit s1 k) as (n & s2 & Hrun2 & Hw2).
    + eapply run_reachable; eauto.
    + eapply run_stop; eauto.
    + lia.
    + exists (es ++ replicate n (Work k)), s2, (os ++ replicate n Quiet).
      split; [apply Forall_app; split;
               [exact Hes|apply Forall_is_work_replicate]|].
      split; [eapply run_app; eauto|].
      split; [rewrite Hw2, length_insert; exact Hlen|].
      intros w Hw. rewrite Hw2.
      destruct (decide (w = k)) as [->|Hne].
      * apply list_lookup_insert_eq. lia.
      * rewrite list_lookup_insert_ne by congruence. apply Hex. lia.
Qed.

Lemma all_exited_forallb ws :
  (forall w, (w < length ws)%nat -> ws !! w = Some Exited) ->
  forallb is_exited ws = true.
Proof.
  induction ws as [|x ws IH]; simpl; intros H; [reflexivity|].
  apply andb_true_iff. split.
  - specialize (H 0%nat ltac:(lia)). injection H as ->. reflexivity.
  - apply IH. intros w Hw. apply (H (S w)). lia.
Qed.

Lemma work_keeps_destructor e s s' o c :
  is_work e = true ->
  step e s = Some (s', o) ->
  callers s !! c = Some InDestructor ->
  callers s' !! c = Some InDestructor.
Proof.
  intros He H Hc. destruct e; try discriminate.
  simpl in H. unfold work in H.
  repeat case_match; simplify_eq/=; auto.
  unfold notify_finished. rewrite lookup_fmap, Hc. reflexivity.
Qed.

Lemma works_keep_destructor es s s' os c :
  Forall (fun e => is_work e = true) es ->
  run es s = Some (s', os) ->
  callers s !! c = Some InDestructor ->
  callers s' !! c = Some InDestructor.
Proof.
  intros Hes. revert s s' os.
  induction Hes as [|e es He _ IH]; simpl; intros s s' os H Hc.
  - injection H as <- _. exact Hc.
  - destruct (step e s) as [[s1 o]|] eqn:E; [|discriminate].
    destruct (run es s1) as [[s2 os']|] eqn:R; [|discriminate].
    injection H as <- _. eapply IH; [exact R|].
    eapply work_keeps_destructor; eauto.
Qed.

(** X13. Shutdown can always complete.  From every reachable state in which
    [stop_] is set there is a schedule of worker transitions only, needing no
    help from any caller, after which every worker has exited; a destructor
    that was waiting in its join can then return. *)
Theorem shutdown_can_complete (s : System) :
  reachable s ->
  stop_ (pool s) = true ->
  exists es s' os,
    Forall (fun e => is_work e = true) es /\
    run es s = Some (s', os) /\
    forallb is_exited (workers_ s') = true /\
    forall c, callers s !! c = Some InDestructor ->
      exists s'', step (JoinWorkers c) s' = Some (s'', Destroyed).
Proof.
  intros Hr Hs.
  destruct (workers_can_exit s (length (workers_ s)) Hr Hs (le_n _))
    as (es & s' & os & Hes & Hrun & Hlen & Hex).
  assert (Hall : forallb is_exited (workers_ s') = true).
  { apply all_exited_forallb. intros w Hw. apply Hex. lia. }
  exists es, s', os. do 3 (split; [assumption|]).
  intros c Hc. simpl.
  rewrite (works_keep_destructor _ _ _ _ _ Hes Hrun Hc), Hall.
  eexists. reflexivity.
Qed.

(** ** Queued work can always be finished *)

Lemma work_Running s w t :
  workers_ s !! w = Some (Running t) ->
  exists s1, step (Work w) s = Some (s1, Quiet) /\
             workers_ s1 = <[w := Completing]> (workers_ s).
Proof.
  intros Hw. simpl. unfold work. rewrite Hw. eexists. split; reflexivity.
Qed.

Lemma work_Completing s w :
  workers_ s !! w = Some Completing ->
  exists s1, step (Work w) s = Some (s1, Quiet) /\
             workers_ s1 = <[w := Fetching]> (workers_ s).
Proof.
  intros Hw. simpl. unfold work. rewrite Hw.
  destruct (NotifyTaskCompletion (pool s)). eexists. split; reflexivity.
Qed.

(** A worker finishes the task it holds, if any, and is back in
    [GetNextTask]; an exited worker stays exited. *)
Lemma settle_worker s w :
  (w < length (workers_ s))%nat ->
  exists n s' y,
    run (replicate n (Work w)) s = Some (s', replicate n Quiet) /\
    workers_ s' = <[w := y]> (workers_ s) /\
    is_busy y = false /\
    (workers_ s !! w = Some Exited <-> y = Exited).
Proof.
  intros Hlt. destruct (lookup_lt_is_Some_2 _ _ Hlt) as [x Hw].
  destruct x.
  - exists 0%nat, s, Fetching. split; [reflexivity|].
    split; [symmetry; apply list_insert_id, Hw|]. split; [reflexivity|].
    rewrite Hw. split; discriminate.
  - destruct (work_Running s w t Hw) as (s1 & H1 & Hw1).
    destruct (work_Completing s1 w) as (s2 & H2 & Hw2).
    { rewrite Hw1. apply list_lookup_insert_eq, Hlt. }
    exists 2%nat, s2, Fetching. split.
    { apply (run_cons _ _ _ _ _ _ _ H1).
      apply (run_cons _ _ _ _ _ _ _ H2). reflexivity. }
    split; [rewrite Hw2, Hw1; apply list_insert_insert_eq|].
    split; [reflexivity|]. rewrite Hw. split; discriminate.
  - destruct (work_Completing s w Hw) as (s1 & H1 & Hw1).
    exists 1%nat, s1, Fetching. split.
    { apply (run_cons _ _ _ _ _ _ _ H1). reflexivity. }
    split; [exact Hw1|]. split; [reflexivity|].
    rewrite Hw. split; discriminate.
  - exists 0%nat, s, Exited. split; [reflexivity|].
    split; [symmetry; apply list_insert_id, Hw|]. split; [reflexivity|].
    rewrite Hw. split; reflexivity.
Qed.

Lemma settle_workers s k :
  (k <= length (workers_ s))%nat ->
  exists es s' os,
    Forall (fun e => is_work e = true) es /\
    run es s = Some (s', os) /\
    length (workers_ s') = length (workers_ s) /\
    (forall w, (w < k)%nat ->
       exists y, workers_ s' !! w = Some y /\ is_busy y = false) /\
    (forall w, workers_ s !! w = Some Exited <->
               workers_ s' !! w = Some Exited).
Proof.
  induction k as [|k IH]; intros Hk.
  - exists [], s, []. split; [constructor|]. split; [reflexivity|].
    split; [reflexivity|]. split; [intros w Hw; lia|reflexivity].
  - destruct IH as (es & s1 & os & Hes & Hrun & Hlen & Hidle & Hex); [lia|].
    destruct (settle_worker s1 k) as (n & s2 & y & Hrun2 & Hw2 & Hy & Hyx);
      [lia|].
    exists (es ++ replicate n (Work k)), s2, (os ++ replicate n Quiet).
    split; [apply Forall_app; split;
             [exact Hes|apply Forall_is_work_replicate]|].
    split; [eapply run_app; eauto|].
    split; [rewrite Hw2, length_insert; exact Hlen|]. split.
    + intros w Hw. rewrite Hw2.
      destruct (decide (w = k)) as [->|Hne].
      * exists y. split; [apply list_lookup_insert_eq; lia|exact Hy].
      * rewrite list_lookup_insert_ne by congruence. apply Hidle. lia.
    + intros w. rewrite Hex, Hw2.
      destruct (decide (w = k)) as [->|Hne].
      * rewrite list_lookup_insert_eq by lia. rewrite Hyx.
        split; congruence.
      * rewrite list_lookup_insert_ne by congruence. reflexivity.
Qed.

Lemma idle_busy_zero ws :
  (forall w, (w < length ws)%nat ->
     exists y, ws !! w = Some y /\ is_busy y = false) ->
  busy ws = 0.
Proof.
  induction ws as [|x ws IH]; simpl; intros H; [reflexivity|].
  destruct (H 0%nat ltac:(lia)) as (y & Hy & Hb). injection Hy as ->.
  rewrite Hb, IH; [reflexivity|].
  intros w Hw. apply (H (S w)). lia.
Qed.

Lemma work_keeps_admitted e s s' o :
  is_work e = true -> step e s = Some (s', o) -> admitted s' = admitted s.
Proof.
  intros He H. destruct e; try discriminate.
  simpl in H. unfold work in H.
  repeat case_match; simplify_eq/=; auto.
Qed.

Lemma works_keep_admitted es s s' os :
  Forall (fun e => is_work e = true) es ->
  run es s = Some (s', os) -> admitted s' = admitted s.
Proof.
  intros Hes. revert s s' os.
  induction Hes as [|e es He _ IH]; simpl; intros s s' os H.
  - injection H as <- _. reflexivity.
  - destruct (step e s) as [[s1 o]|] eqn:E; [|discriminate].
    destruct (run es s1) as [[s2 os']|] eqn:R; [|discriminate].
    injection H as <- _. rewrite (IH _ _ _ R).
    eapply work_keeps_admitted; eauto.
Qed.

Lemma work_keeps_waiter e s s' o c :
  is_work e = true ->
  step e s = Some (s', o) ->
  (exists a, callers s !! c = Some (InWaitForAllTasks a)) ->
  exists a, callers s' !! c = Some (InWaitForAllTasks a).
Proof.
  intros He H [a Hc]. destruct e; try discriminate.
  simpl in H. unfold work in H.
  repeat case_match; simplify_eq/=; eauto.
  unfold notify_finished. rewrite lookup_fmap, Hc. simpl. eauto.
Qed.

Lemma works_keep_waiter es s s' os c :
  Forall (fun e => is_work e = true) es ->
  run es s = Some (s', os) ->
  (exists a, callers s !! c = Some (InWaitForAllTasks a)) ->
  exists a, callers s' !! c = Some (InWaitForAllTasks a).
Proof.
  intros Hes. revert s s' os.
  induction Hes as [|e es He _ IH]; simpl; intros s s' os H Hc.
  - injection H as <- _. exact Hc.
  - destruct (step e s) as [[s1 o]|] eqn:E; [|discriminate].
    destruct (run es s1) as [[s2 os']|] eqn:R; [|discriminate].
    injection H as <- _. eapply IH; [exact R|].
    eapply work_keeps_waiter; eauto.
Qed.

(** X14. Work that has been admitted can always be finished.  From every
    reachable state in which some worker has not exited there is a schedule
    of worker transitions only after which the queue is empty and
    [activeTasks_] is zero; every task emplaced before has then been
    executed, and every caller that was inside [WaitForAllTasks] can
    return. *)
Theorem admitted_work_can_be_finished (s : System) (w : nat) (x : Worker) :
  reachable s ->
  workers_ s !! w = Some x ->
  x <> Exited ->
  exists es s' os,
    Forall (fun e => is_work e = true) es /\
    run es s = Some (s', os) /\
    tasks_ (pool s') = [] /\ activeTasks_ (pool s') = 0 /\
    admitted s ≡ₚ executed s' /\
    forall c a, callers s !! c = Some (InWaitForAllTasks a) ->
      exists s'', step (WakeWaitForAllTasks c) s' = Some (s'', Drained).
Proof.
  intros Hr Hw Hx.
  destruct (settle_workers s (length (workers_ s)) (le_n _))
    as (es1 & s1 & os1 & Hes1 & Hrun1 & Hlen1 & Hidle1 & Hex1).
  assert (Hr1 : reachable s1) by (eapply run_reachable; eauto).
  assert (Hb1 : busy (workers_ s1) = 0).
  { apply idle_busy_zero. intros w' Hw'. apply Hidle1. lia. }
  assert (Hw1 : workers_ s1 !! w = Some Fetching).
  { destruct (Hidle1 w) as (y & Hy & Hby);
      [eapply lookup_lt_Some; eauto|].
    destruct y; try discriminate; [exact Hy|].
    apply Hex1 in Hy. congruence. }
  destruct (drain_queue s1 w Hr1 Hw1)
    as (s2 & Hrun2 & Hq2 & _ & _ & Hw2 & _ & Ha2).
  assert (Hrun : run (es1 ++ replicate (3 * length (tasks_ (pool s1))) (Work w))
                   s = Some (s2, os1 ++ replicate
                                (3 * length (tasks_ (pool s1))) Quiet))
    by (eapply run_app; eauto).
  assert (Hes : Forall (fun e => is_work e = true)
                  (es1 ++ replicate (3 * length (tasks_ (pool s1))) (Work w)))
    by (apply Forall_app; split; [exact Hes1|apply Forall_is_work_replicate]).
  assert (Hr2 : reachable s2) by (eapply run_reachable; eauto).
  pose proof (reachable_invariant s2 Hr2) as Hi2.
  pose proof (reachable_ownership s2 Hr2) as Ho2.
  assert (Hz2 : activeTasks_ (pool s2) = 0).
  { rewrite Ha2, (inv_active s1 (reachable_invariant s1 Hr1)). exact Hb1. }
  assert (Hd2 : all_done (pool s2) = true) by (apply all_done_iff; auto).
  eexists _, s2, _. split; [exact Hes|]. split; [exact Hrun|].
  split; [exact Hq2|]. split; [exact Hz2|]. split.
  - rewrite <- (works_keep_admitted _ _ _ _ Hes Hrun).
    rewrite (inv_fifo s2 Hi2), (own_split s2 Ho2), Hq2.
    rewrite (inv_active s2 Hi2) in Hz2.
    rewrite (busy_zero_running _ Hz2), !app_nil_r. reflexivity.
  - intros c a Hc.
    destruct (works_keep_waiter _ _ _ _ c Hes Hrun) as [a2 Hc2]; [eauto|].
    destruct a2; [exfalso; exact (inv_awake s2 Hi2 Hd2 c Hc2)|].
    simpl. rewrite Hc2, Hd2. eexists. reflexivity.
Qed.

(** ** Instances of the further properties *)

Lemma five_queued_pool_reachable : reachable five_queued_pool.
Proof.
  apply after_reachable, reachable_construct;
    [reflexivity|split; [lia|reflexivity]].
Defined.

(** One worker about to report its task. *)
Lemma activeTasks_counts_busy_workers_witness :
  reachable reporting_pool /\
  activeTasks_ (pool reporting_pool) = 1 /\
  activeTasks_ (fst (NotifyTaskCompletion (pool reporting_pool))) = 0.
Proof.
  assert (Hr : reachable reporting_pool)
    by (apply after_reachable, fresh_pool_reachable).
  split; [exact Hr|].
  destruct (activeTasks_counts_busy_workers reporting_pool Hr)
    as (Ha & _ & Hc).
  split; [rewrite Ha; reflexivity|].
  destruct (Hc 0%nat eq_refl) as [_ Hd]. rewrite Hd, Ha. reflexivity.
Defined.

(** One task executed, one held by the second worker, one queued. *)
Lemma tasks_are_conserved_witness :
  reachable mixed_pool /\
  length (executed mixed_pool) = 1%nat /\
  length (running (workers_ mixed_pool)) = 1%nat /\
  length (tasks_ (pool mixed_pool)) = 1%nat /\
  NoDup (shared <$> admitted mixed_pool).
Proof.
  assert (Hr : reachable mixed_pool).
  { apply after_reachable, reachable_construct;
      [reflexivity|split; [lia|reflexivity]]. }
  split; [exact Hr|]. do 3 (split; [reflexivity|]).
  apply (tasks_are_conserved mixed_pool Hr).
Defined.


(** The worker of the shutdown scenario has exited and stays so. *)
Lemma exited_worker_is_final_witness :
  reachable before_join /\
  workers_ before_join !! 0%nat = Some Exited /\
  stop_ (pool before_join) = true /\
  workers_ (after [JoinWorkers 0] before_join) !! 0%nat = Some Exited.
Proof.
  assert (Hr : reachable before_join)
    by apply after_reachable, five_queued_pool_reachable.
  split; [exact Hr|]. split; [vm_compute; reflexivity|].
  destruct (exited_worker_is_final before_join 0 Hr) as (Hs & _ & Hf).
  - vm_compute. reflexivity.
  - split; [exact Hs|].
    apply (Hf [JoinWorkers 0] _ [Destroyed]). vm_compute. reflexivity.
Defined.

(** The join of the shutdown scenario. *)
Lemma destructor_returns_after_running_tasks_finish_witness :
  reachable before_join /\
  step (JoinWorkers 0) before_join =
    Some (after [JoinWorkers 0] before_join, Destroyed) /\
  activeTasks_ (pool before_join) = 0 /\
  dequeued before_join ≡ₚ executed before_join.
Proof.
  assert (Hr : reachable before_join)
    by apply after_reachable, five_queued_pool_reachable.
  assert (Hj : step (JoinWorkers 0) before_join =
               Some (after [JoinWorkers 0] before_join, Destroyed))
    by (vm_compute; reflexivity).
  split; [exact Hr|]. split; [exact Hj|].
  destruct (destructor_returns_after_running_tasks_finish _ _ _ Hr Hj)
    as (_ & _ & Ha & Hp & _).
  split; [exact Ha|exact Hp].
Defined.


(** Capacity one: one task admitted, a second one by the grace path. *)
Lemma queue_length_bound_witness :
  run [CallEnqueue 0 (job 1); CallEnqueue 1 (job 2); WakeEnqueue 1 true]
      (construct 1 1)
    = Some (after [WakeEnqueue 1 true] sleeper_pool,
            [Future 0; Quiet; Future 1]) /\
  size (tasks_ (pool (after [WakeEnqueue 1 true] sleeper_pool))) <= 1 + 1.
Proof.
  assert (Hrun :
    run [CallEnqueue 0 (job 1); CallEnqueue 1 (job 2); WakeEnqueue 1 true]
        (construct 1 1)
      = Some (after [WakeEnqueue 1 true] sleeper_pool,
              [Future 0; Quiet; Future 1])) by (vm_compute; reflexivity).
  split; [exact Hrun|].
  destruct (queue_length_bound _ _ _ _ Hrun) as [_ H]. exact H.
Defined.

(** One worker, five queued tasks, [stop_] not yet set. *)
Lemma worker_drains_queue_witness :
  reachable five_queued_pool /\
  workers_ five_queued_pool !! 0%nat = Some Fetching /\
  exists s', tasks_ (pool s') = [] /\
             executed s' = tasks_ (pool five_queued_pool).
Proof.
  split; [exact five_queued_pool_reachable|].
  split; [vm_compute; reflexivity|].
  destruct (worker_drains_queue five_queued_pool 0 five_queued_pool_reachable)
    as (s' & _ & Hq & He & _).
  - vm_compute. reflexivity.
  - exists s'. split; [exact Hq|]. rewrite He. vm_compute. reflexivity.
Defined.


(** The barrier returns after the only task has run. *)
Lemma WaitForAllTasks_returns_after_all_tasks_ran_witness :
  reachable drained_with_waiter /\
  step (WakeWaitForAllTasks 1) drained_with_waiter =
    Some (after [WakeWaitForAllTasks 1] drained_with_waiter, Drained) /\
  admitted drained_with_waiter ≡ₚ executed drained_with_waiter.
Proof.
  assert (Hr : reachable drained_with_waiter)
    by (apply after_reachable, fresh_pool_reachable).
  assert (Hs : step (WakeWaitForAllTasks 1) drained_with_waiter =
    Some (after [WakeWaitForAllTasks 1] drained_with_waiter, Drained))
    by (vm_compute; reflexivity).
  split; [exact Hr|]. split; [exact Hs|].
  apply (WaitForAllTasks_returns_after_all_tasks_ran _ _ _ Hr Hs).
Defined.

(** Both kinds of submission on a stopped pool. *)
Lemma submissions_after_stop_are_rejected_witness :
  stop_ (pool stopped_pool) = true /\
  run [CallEnqueue 1 (job 1); CallTryEnqueue 1 (job 2)] stopped_pool =
    Some (stopped_pool,
          [Error "enqueue on stopped ThreadPool"; Flag false]) /\
  forall o, [Error "enqueue on stopped ThreadPool"; Flag false] !! 1%nat
            = Some o -> o = Flag false.
Proof.
  assert (Hrun :
    run [CallEnqueue 1 (job 1); CallTryEnqueue 1 (job 2)] stopped_pool =
    Some (stopped_pool,
          [Error "enqueue on stopped ThreadPool"; Flag false]))
    by (vm_compute; reflexivity).
  split; [reflexivity|]. split; [exact Hrun|].
  intros o Ho.
  destruct (submissions_after_stop_are_rejected
              [CallEnqueue 1 (job 1); CallTryEnqueue 1 (job 2)]
              stopped_pool stopped_pool _ eq_refl Hrun
              1%nat _ o eq_refl Ho) as [_ H].
  exact (H _ _ eq_refl).
Defined.

(** Two calls of [Enqueue] on a fresh pool. *)
Lemma Enqueue_futures_are_distinct_witness :
  reachable fresh_pool /\
  run [CallEnqueue 0 (job 1); CallEnqueue 0 (job 2)] fresh_pool =
    Some (after [CallEnqueue 0 (job 1); CallEnqueue 0 (job 2)] fresh_pool,
          [Future 0; Future 1]) /\
  NoDup (futures [Future 0; Future 1]).
Proof.
  assert (Hrun :
    run [CallEnqueue 0 (job 1); CallEnqueue 0 (job 2)] fresh_pool =
    Some (after [CallEnqueue 0 (job 1); CallEnqueue 0 (job 2)] fresh_pool,
          [Future 0; Future 1])) by (vm_compute; reflexivity).
  split; [exact fresh_pool_reachable|]. split; [exact Hrun|].
  apply (Enqueue_futures_are_distinct _ _ _ _ fresh_pool_reachable Hrun).
Defined.

(** The shutdown scenario, from the moment the destructor has set
    [stop_]. *)
Lemma shutdown_can_complete_witness :
  reachable (after [CallDestructor 0] five_queued_pool) /\
  stop_ (pool (after [CallDestructor 0] five_queued_pool)) = true /\
  exists es s' os,
    run es (after [CallDestructor 0] five_queued_pool) = Some (s', os) /\
    forallb is_exited (workers_ s') = true.
Proof.
  assert (Hr : reachable (after [CallDestructor 0] five_queued_pool))
    by apply after_reachable, five_queued_pool_reachable.
  split; [exact Hr|]. split; [reflexivity|].
  destruct (shutdown_can_complete _ Hr eq_refl)
    as (es & s' & os & _ & Hrun & Hall & _).
  exists es, s', os. split; assumption.
Defined.

(** Two workers holding a task each, one more task queued. *)
Lemma admitted_work_can_be_finished_witness :
  reachable mixed_pool /\
  workers_ mixed_pool !! 0%nat = Some Completing /\
  Completing <> Exited /\
  exists es s' os,
    run es mixed_pool = Some (s', os) /\
    tasks_ (pool s') = [] /\
    admitted mixed_pool ≡ₚ executed s'.
Proof.
  assert (Hr : reachable mixed_pool).
  { apply after_reachable, reachable_construct;
      [reflexivity|split; [lia|reflexivity]]. }
  assert (Hw : workers_ mixed_pool !! 0%nat = Some Completing)
    by (vm_compute; reflexivity).
  assert (Hx : Completing <> Exited) by discriminate.
  split; [exact Hr|]. split; [exact Hw|]. split; [exact Hx|].
  destruct (admitted_work_can_be_finished mixed_pool 0 Completing Hr Hw Hx)
    as (es & s' & os & _ & Hrun & Hq & _ & Hp & _).
  exists es, s', os. split; [exact Hrun|]. split; [exact Hq|exact Hp].
Defined.
